(** * Job-source agent: resolution pipeline of [part2_agent.py]
    (and its earlier variant [part2_agent_prev.py])

    The development embeds the Python program shallowly.  Pure helpers
    become functions on strings; code that talks to the network, to the
    headless browser or to the CSV sink lives in a small state-and-exception
    monad whose state is the history of external calls made so far. *)

From Stdlib Require Import Ascii String List Bool Arith Lia.
From stdpp Require Import base option list gmap strings.

Set Default Proof Using "Type".
#[local] Set Warnings "-clear-no-such-hyp".

(** ** Python [str] primitives

    Text is modelled as [string]; the characters are ASCII code points
    (codes above 127 are kept as opaque characters that are neither
    whitespace nor letters). *)
Module Py.

Definition ord (c : ascii) : nat := nat_of_ascii c.

Definition in_range (lo hi : nat) (c : ascii) : bool :=
  Nat.leb lo (ord c) && Nat.leb (ord c) hi.

(** [str.isspace] on one ASCII character: blank, TAB..CR and FS..US. *)
Definition isspace (c : ascii) : bool :=
  Nat.eqb (ord c) 32 || in_range 9 13 c || in_range 28 31 c.

Definition isupper (c : ascii) : bool := in_range 65 90 c.
Definition islower (c : ascii) : bool := in_range 97 122 c.
Definition isalpha (c : ascii) : bool := isupper c || islower c.
Definition isdigit (c : ascii) : bool := in_range 48 57 c.

Definition lower_char (c : ascii) : ascii :=
  if isupper c then ascii_of_nat (ord c + 32) else c.

(** [s.lower()] *)
Fixpoint lower (s : string) : string :=
  match s with
  | EmptyString => EmptyString
  | String c s' => String (lower_char c) (lower s')
  end.

(** Truth value of a string: [bool(s)]. *)
Definition nonempty (s : string) : bool :=
  match s with EmptyString => false | String _ _ => true end.

(** Truth value of an optional string ([None] and [""] are falsy). *)
Definition truthy (o : option string) : bool :=
  match o with Some s => nonempty s | None => false end.

(** [a or b] on optional strings. *)
Definition or_else (a b : option string) : option string :=
  if truthy a then a else b.

(** [o or ""] *)
Definition or_empty (o : option string) : string :=
  match o with Some s => s | None => "" end.

(** [p] is a prefix of [s]. *)
Fixpoint prefix (p s : string) : bool :=
  match p, s with
  | EmptyString, _ => true
  | String a p', String b s' => if Ascii.eqb a b then prefix p' s' else false
  | String _ _, EmptyString => false
  end.

(** [s.endswith(p)] *)
Fixpoint endswith (s p : string) : bool :=
  String.eqb s p ||
  match s with
  | EmptyString => false
  | String _ s' => endswith s' p
  end.

(** [s.startswith(p)] *)
Definition startswith (s p : string) : bool := prefix p s.

(** [sub in s] *)
Fixpoint contains (sub s : string) : bool :=
  prefix sub s ||
  match s with
  | EmptyString => false
  | String _ s' => contains sub s'
  end.

(** [any(k in s for k in ks)] *)
Definition any_in (ks : list string) (s : string) : bool :=
  existsb (fun k => contains k s) ks.

(** [x in l] for a list of strings. *)
Definition mem (x : string) (l : list string) : bool :=
  existsb (String.eqb x) l.

Fixpoint lstrip_by (p : ascii -> bool) (s : string) : string :=
  match s with
  | EmptyString => EmptyString
  | String c s' => if p c then lstrip_by p s' else s
  end.

Fixpoint rstrip_by (p : ascii -> bool) (s : string) : string :=
  match s with
  | EmptyString => EmptyString
  | String c s' =>
      let r := rstrip_by p s' in
      if p c && negb (nonempty r) then EmptyString else String c r
  end.

(** [s.strip()] *)
Definition strip (s : string) : string := rstrip_by isspace (lstrip_by isspace s).

Fixpoint drop (n : nat) (s : string) : string :=
  match n, s with
  | S n', String _ s' => drop n' s'
  | _, _ => s
  end.

Fixpoint filter_chars (p : ascii -> bool) (s : string) : string :=
  match s with
  | EmptyString => EmptyString
  | String c s' => if p c then String c (filter_chars p s') else filter_chars p s'
  end.

Fixpoint all_chars (p : ascii -> bool) (s : string) : bool :=
  match s with
  | EmptyString => true
  | String c s' => p c && all_chars p s'
  end.

(** Longest prefix whose characters satisfy [p], and the rest. *)
Fixpoint span (p : ascii -> bool) (s : string) : string * string :=
  match s with
  | EmptyString => (EmptyString, EmptyString)
  | String c s' =>
      if p c then let '(a, b) := span p s' in (String c a, b)
      else (EmptyString, s)
  end.

(** [s.split(sep)] for a non-empty separator: occurrences are taken
    leftmost first and do not overlap.  [skip] counts the characters of a
    separator occurrence still to be passed over. *)
Fixpoint split_go (sep s : string) (skip : nat) : list string :=
  match s with
  | EmptyString => [EmptyString]
  | String c s' =>
      match skip with
      | S k => split_go sep s' k
      | O =>
          if prefix sep s
          then EmptyString :: split_go sep s' (String.length sep - 1)
          else match split_go sep s' 0 with
               | p :: ps => String c p :: ps
               | [] => [String c EmptyString]
               end
      end
  end.

Definition split (sep s : string) : list string := split_go sep s 0.

(** [l[0]] and [l[-1]] on the result of a split (never an empty list). *)
Definition first (l : list string) : string := hd EmptyString l.
Definition final (l : list string) : string := List.last l EmptyString.

(** [sep.join(l)] *)
Fixpoint join (sep : string) (l : list string) : string :=
  match l with
  | [] => EmptyString
  | [x] => x
  | x :: rest => x +:+ sep +:+ join sep rest
  end.

(** [s.split(c, 1)] when [c] occurs in [s]: the text before the first
    occurrence of the character and the text after it. *)
Fixpoint cut (c : ascii) (s : string) : option (string * string) :=
  match s with
  | EmptyString => None
  | String d s' =>
      if Ascii.eqb d c then Some (EmptyString, s')
      else match cut c s' with
           | Some (a, b) => Some (String d a, b)
           | None => None
           end
  end.

(** The same at the last occurrence ([s.rfind(c)]). *)
Fixpoint rcut (c : ascii) (s : string) : option (string * string) :=
  match s with
  | EmptyString => None
  | String d s' =>
      match rcut c s' with
      | Some (a, b) => Some (String d a, b)
      | None => if Ascii.eqb d c then Some (EmptyString, s') else None
      end
  end.

End Py.

(** ** The URL library used by the program ([urllib.parse])

    [urlparse], [urlunparse] and [urljoin] follow the CPython 3.11
    implementation on text input.  The [ValueError] that CPython raises for
    a malformed bracketed (IPv6) host is outside the model: the functions
    below are total. *)
Module urllib.
Import Py.

Definition uses_relative : list string :=
  [""; "ftp"; "http"; "gopher"; "nntp"; "imap"; "wais"; "file"; "https";
   "shttp"; "mms"; "prospero"; "rtsp"; "rtspu"; "sftp"; "svn"; "svn+ssh";
   "ws"; "wss"].

Definition uses_netloc : list string :=
  [""; "ftp"; "http"; "gopher"; "nntp"; "telnet"; "imap"; "wais"; "file";
   "mms"; "https"; "shttp"; "snews"; "prospero"; "rtsp"; "rtspu"; "rsync";
   "svn"; "svn+ssh"; "sftp"; "nfs"; "git"; "git+ssh"; "ws"; "wss"].

Definition uses_params : list string :=
  [""; "ftp"; "hdl"; "prospero"; "http"; "imap"; "https"; "shttp"; "rtsp";
   "rtspu"; "sip"; "sips"; "mms"; "sftp"; "tel"].

Definition scheme_char (c : ascii) : bool :=
  isalpha c || isdigit c ||
  Ascii.eqb c "+" || Ascii.eqb c "-" || Ascii.eqb c ".".

(** Leading C0 control characters and blanks are stripped. *)
Definition c0_or_space (c : ascii) : bool := Nat.leb (ord c) 32.

(** TAB, CR and LF are removed wherever they occur. *)
Definition unsafe_byte (c : ascii) : bool :=
  Nat.eqb (ord c) 9 || Nat.eqb (ord c) 13 || Nat.eqb (ord c) 10.

Definition remove_unsafe (s : string) : string :=
  filter_chars (fun c => negb (unsafe_byte c)) s.

Record ParseResult := mkParse {
  scheme : string;
  netloc : string;
  path : string;
  params : string;
  query : string;
  fragment : string
}.

Definition first_is_alpha (s : string) : bool :=
  match s with
  | String c _ => isalpha c
  | EmptyString => false
  end.

(** The scheme of [url] when it starts with one, else the default. *)
Definition split_scheme (url default : string) : string * string :=
  match cut ":" url with
  | Some (pre, rest) =>
      if nonempty pre && first_is_alpha url && all_chars scheme_char pre
      then (lower pre, rest)
      else (default, url)
  | None => (default, url)
  end.

Definition netloc_delim (c : ascii) : bool :=
  Ascii.eqb c "/" || Ascii.eqb c "?" || Ascii.eqb c "#".

(** [_splitnetloc(url, 2)] *)
Definition splitnetloc (url : string) : string * string :=
  span (fun c => negb (netloc_delim c)) (drop 2 url).

Definition cut_or (c : ascii) (s : string) : string * string :=
  match cut c s with
  | Some ab => ab
  | None => (s, EmptyString)
  end.

(** [urlsplit(url, scheme)]: scheme, netloc, path, query, fragment. *)
Definition urlsplit (url default : string)
  : string * string * string * string * string :=
  let url := remove_unsafe (lstrip_by c0_or_space url) in
  let default :=
    remove_unsafe (rstrip_by c0_or_space (lstrip_by c0_or_space default)) in
  let '(sch, url) := split_scheme url default in
  let '(net, url) :=
    if startswith url "//" then splitnetloc url else (EmptyString, url) in
  let '(url, frag) := cut_or "#" url in
  let '(url, qry) := cut_or "?" url in
  (sch, net, url, qry, frag).

(** [_splitparams(url)], called when [";"] occurs in [url]. *)
Definition splitparams (url : string) : string * string :=
  match rcut "/" url with
  | Some (dir, seg) =>
      match cut ";" seg with
      | Some (a, b) => (dir +:+ "/" +:+ a, b)
      | None => (url, EmptyString)
      end
  | None => cut_or ";" url
  end.

Definition urlparse (url default : string) : ParseResult :=
  let '(sch, net, url, qry, frag) := urlsplit url default in
  let '(url, prm) :=
    if mem sch uses_params && contains ";" url then splitparams url
    else (url, EmptyString) in
  mkParse sch net url prm qry frag.

Definition urlunsplit (sch net url qry frag : string) : string :=
  let url :=
    if nonempty net ||
       (nonempty sch && mem sch uses_netloc && negb (startswith url "//"))
    then
      let url :=
        if nonempty url && negb (startswith url "/") then "/" +:+ url
        else url in
      "//" +:+ net +:+ url
    else url in
  let url := if nonempty sch then sch +:+ ":" +:+ url else url in
  let url := if nonempty qry then url +:+ "?" +:+ qry else url in
  if nonempty frag then url +:+ "#" +:+ frag else url.

Definition urlunparse (p : ParseResult) : string :=
  let url :=
    if nonempty (params p) then path p +:+ ";" +:+ params p else path p in
  urlunsplit (scheme p) (netloc p) url (query p) (fragment p).

(** [segments[1:-1] = filter(None, segments[1:-1])] *)
Definition filter_middle (l : list string) : list string :=
  match l with
  | [] => []
  | x :: rest =>
      match rest with
      | [] => [x]
      | _ => x :: List.filter nonempty (removelast rest) ++ [final rest]
      end
  end.

(** One step of the dot-segment loop; the stack is kept top first. *)
Definition resolve_step (stack : list string) (seg : string) : list string :=
  if String.eqb seg ".." then tl stack
  else if String.eqb seg "." then stack
  else seg :: stack.

Definition resolve_path (bpath rel : string) : string :=
  let base_parts := split "/" bpath in
  let base_parts :=
    if nonempty (final base_parts) then removelast base_parts
    else base_parts in
  let segments :=
    if startswith rel "/" then split "/" rel
    else filter_middle (base_parts ++ split "/" rel) in
  let resolved := rev (fold_left resolve_step segments []) in
  let resolved :=
    if mem (final segments) ["."; ".."] then resolved ++ [EmptyString]
    else resolved in
  let joined := join "/" resolved in
  if nonempty joined then joined else "/".

Definition urljoin (base url : string) : string :=
  if negb (nonempty base) then url
  else if negb (nonempty url) then base
  else
    let b := urlparse base "" in
    let u := urlparse url (scheme b) in
    if negb (String.eqb (scheme u) (scheme b)) ||
       negb (mem (scheme u) uses_relative)
    then url
    else if mem (scheme u) uses_netloc && nonempty (netloc u)
    then urlunparse u
    else
      let net := if mem (scheme u) uses_netloc then netloc b else netloc u in
      if negb (nonempty (path u)) && negb (nonempty (params u)) then
        let qry := if nonempty (query u) then query u else query b in
        urlunparse (mkParse (scheme u) net (path b) (params b) qry (fragment u))
      else
        urlunparse (mkParse (scheme u) net (resolve_path (path b) (path u))
                            (params u) (query u) (fragment u)).

End urllib.

(** ** The outside world

    Every call that leaves the process (HTTP requests, the headless
    browser, the CSV sink) is recorded in a history.  The answers of the
    world are oracles that see the history of the calls made before, so a
    page may change between two visits and a request may fail once and
    succeed later. *)

(** A parsed document, as far as the program looks at it. *)
Record Anchor := mkAnchor {
  href : string;            (* a["href"] *)
  text : string             (* a.get_text() *)
}.

Record Soup := mkSoup {
  meta_property : option (option string);
    (* soup.find("meta", {"property": "og:site_name"}), and its content *)
  meta_name : option (option string);
    (* soup.find("meta", {"name": "og:site_name"}), and its content *)
  title : option (option string);      (* soup.title, and its .string *)
  anchors : list Anchor;               (* soup.find_all("a", href=True) *)
  footer : option (list Anchor);       (* soup.find("footer"), its anchors *)
  scripts : list (option string);      (* .string of every script *)
  result_a : option (option string)
    (* soup.find("a", {"class": "result__a"}), and its href *)
}.

(** An HTTP response: status code, final URL after redirects, body. *)
Record Response := mkResponse {
  status_code : nat;
  resp_url : string;
  resp_text : string
}.

(** The truth value of a response object, which is also the condition under
    which [raise_for_status] returns: the status is no client or server
    error (400 to 599). *)
Definition ok (r : Response) : bool :=
  negb (Nat.leb 400 (status_code r) && Nat.ltb (status_code r) 600).

(** One output row of the CSV sink. *)
Record Row := mkRow {
  company_name : string;
  company_website : string;
  career_page : string;
  job_url : string
}.

Inductive Event :=
| EvHead (url : string)
| EvGet (url : string)
| EvPost (url q : string)
| EvLaunch
| EvGoto (url : string)
| EvEvaluate (script : string)
| EvContent
| EvClose
| EvSave (row : Row).

Definition History := list Event.

(** The oracles; [None] (or [false]) means that the call raised. *)
Record Env := mkEnv {
  PLAYWRIGHT_AVAILABLE : bool;
  http_head : History -> string -> option Response;
  http_get : History -> string -> option Response;
  http_post : History -> string -> string -> option Response;
  browser_launch : History -> bool;
  page_goto : History -> string -> bool;
  page_evaluate : History -> string -> option (option nat);
  page_content : History -> option string;
  browser_close : History -> bool;
  html_parser : string -> Soup
}.

(** ** The monad of effectful code: history passing, with exceptions *)
Definition IO (A : Type) : Type := History -> option A * History.

Global Instance IO_ret : MRet IO := fun A a h => (Some a, h).
Global Instance IO_bind : MBind IO := fun A B f m h =>
  match m h with
  | (Some a, h') => f a h'
  | (None, h') => (None, h')
  end.

Definition raise {A} : IO A := fun h => (None, h).

(** [try: m except Exception: pass], the result kept when there is one. *)
Definition attempt {A} (m : IO A) : IO (option A) := fun h =>
  match m h with
  | (Some a, h') => (Some (Some a), h')
  | (None, h') => (Some None, h')
  end.

(** A call to the world: the event is recorded, the oracle answers. *)
Definition call {A} (e : Event) (answer : History -> option A) : IO A :=
  fun h => (answer h, h ++ [e]).

Definition bool_answer (b : bool) : option unit := if b then Some () else None.

Section Primitives.
Context (env : Env).

(** The HTTP client raises on a URL that is [None] before it sends
    anything. *)
Definition requests_head (url : option string) : IO Response :=
  match url with
  | Some u => call (EvHead u) (fun h => http_head env h u)
  | None => raise
  end.

Definition requests_get (url : option string) : IO Response :=
  match url with
  | Some u => call (EvGet u) (fun h => http_get env h u)
  | None => raise
  end.

Definition requests_post (url q : string) : IO Response :=
  call (EvPost url q) (fun h => http_post env h url q).

Definition raise_for_status (r : Response) : IO unit :=
  if ok r then mret () else raise.

(** [async_playwright()], [chromium.launch] and [new_page]. *)
Definition launch : IO unit :=
  call EvLaunch (fun h => bool_answer (browser_launch env h)).

Definition goto (url : option string) : IO unit :=
  match url with
  | Some u => call (EvGoto u) (fun h => bool_answer (page_goto env h u))
  | None => raise
  end.

Definition evaluate (script : string) : IO (option nat) :=
  call (EvEvaluate script) (fun h => page_evaluate env h script).

Definition content : IO string :=
  call EvContent (fun h => page_content env h).

Definition close : IO unit :=
  call EvClose (fun h => bool_answer (browser_close env h)).

Definition BeautifulSoup (html : string) : Soup := html_parser env html.

(** [save_row]: the row is appended to the sink (the header line and
    file-system failures are not modelled). *)
Definition save_row (row : Row) : IO unit :=
  fun h => (Some (), h ++ [EvSave row]).

End Primitives.

(** The rows of the sink, in the order they were written. *)
Fixpoint saved_rows (h : History) : list Row :=
  match h with
  | [] => []
  | EvSave r :: h' => r :: saved_rows h'
  | _ :: h' => saved_rows h'
  end.

(** ** [part2_agent.py] *)
Module Agent.
Import Py urllib.

Definition MAX_RETRIES : nat := 3.

Definition CAREER_KEYWORDS : list string :=
  ["career"; "careers"; "jobs"; "join"; "vacancies"; "openings"; "join-us";
   "work-with-us"].
Definition JOB_KEYWORDS : list string :=
  ["job"; "position"; "apply"; "opening"; "/jobs/"; "/open-positions/"].
Definition ATS_HOSTS : list string :=
  ["lever.co"; "greenhouse.io"; "workday.com"; "smartrecruiters.com";
   "apply.workable.com"; "jobvite.com"].

(** *** Pure helpers *)

Definition is_linkedin_domain (url : option string) : bool :=
  if negb (truthy url) then false
  else
    let host := lower (netloc (urlparse (or_empty url) "")) in
    contains "linkedin.com" host || contains "lnkd.in" host.

Definition normalize_url (base : string) (href : option string)
  : option string :=
  if negb (truthy href) then None
  else
    let href := strip (or_empty href) in
    if startswith href "#" || startswith (lower href) "javascript:"
       || startswith (lower href) "mailto:"
    then None
    else if startswith href "//" then
      let parsed_base := urlparse base "" in
      let scheme :=
        if nonempty (scheme parsed_base) then scheme parsed_base
        else "https" in
      Some (scheme +:+ ":" +:+ href)
    else Some (urljoin base href).

Definition is_ats_url (url : option string) : bool :=
  if negb (truthy url) then false
  else
    let host := lower (netloc (urlparse (or_empty url) "")) in
    existsb (fun ats => contains ats host) ATS_HOSTS.

Fixpoint first_external_link_in (l : list Anchor) (avoid_domain : option string)
  : option string :=
  match l with
  | [] => None
  | a :: l' =>
      let href := strip (href a) in
      if startswith href "http" &&
         (negb (truthy avoid_domain) ||
          negb (contains (or_empty avoid_domain) href))
      then Some href
      else first_external_link_in l' avoid_domain
  end.

Definition first_external_link (soup : Soup) (avoid_domain : option string)
  : option string :=
  first_external_link_in (anchors soup) avoid_domain.

(** The company-name heuristics, the same text in
    [render_linkedin_job_with_playwright] and in
    [extract_linkedin_job_requests]: the [og:site_name] metadata, then the
    title pattern "Job Title at Company | LinkedIn". *)
Definition company_name_heuristics (soup : Soup) : option string :=
  let og :=
    match meta_property soup with
    | Some tag => Some tag
    | None => meta_name soup
    end in
  let company_name :=
    match og with
    | Some (Some c) => if nonempty c then Some (strip c) else None
    | _ => None
    end in
  match title soup with
  | Some title_string =>
      if negb (truthy company_name) then
        let title := or_empty title_string in
        if contains " at " title
        then Some (strip (first (split "|" (final (split " at " title)))))
        else company_name
      else company_name
  | None => company_name
  end.

(** The first anchor whose text says "Company website" or is "website". *)
Fixpoint website_anchor (l : list Anchor) : option string :=
  match l with
  | [] => None
  | a :: l' =>
      let txt := lower (text a) in
      if contains "company website" txt || String.eqb (strip txt) "website"
      then Some (href a)
      else website_anchor l'
  end.

(** [re.search(r"https?://[^\s'\"<>]*" + re.escape(ats) + r"[^\s'\"<>]*", txt)]:
    both starred classes are greedy and every character of an ATS host
    belongs to the class, so a match at a position is the scheme prefix
    followed by the whole run of class characters, and it exists when that
    run contains the host. *)
Definition url_char (c : ascii) : bool :=
  negb (isspace c || Ascii.eqb c "'" || Ascii.eqb c "034" ||
        Ascii.eqb c "<" || Ascii.eqb c ">").

Definition match_with_prefix (pre ats s : string) : option string :=
  if startswith s pre then
    let run := fst (span url_char (drop (String.length pre) s)) in
    if contains ats run then Some (pre +:+ run) else None
  else None.

Definition match_ats_at (ats s : string) : option string :=
  match match_with_prefix "https://" ats s with
  | Some m => Some m
  | None => match_with_prefix "http://" ats s
  end.

Fixpoint re_search_ats (ats s : string) : option string :=
  match match_ats_at ats s with
  | Some m => Some m
  | None =>
      match s with
      | EmptyString => None
      | String _ s' => re_search_ats ats s'
      end
  end.

Fixpoint first_ats_match (hosts : list string) (txt : string) : option string :=
  match hosts with
  | [] => None
  | ats :: rest =>
      match re_search_ats ats txt with
      | Some m => Some m
      | None => first_ats_match rest txt
      end
  end.

Fixpoint scan_scripts (l : list (option string)) : option string :=
  match l with
  | [] => None
  | s :: rest =>
      match first_ats_match ATS_HOSTS (or_empty s) with
      | Some m => Some m
      | None => scan_scripts rest
      end
  end.

(** [not r] and the keyword test on the body of a response. *)
Definition falsy (r : option Response) : bool :=
  match r with Some r => negb (ok r) | None => true end.

Definition body_has (ks : list string) (r : option Response) : bool :=
  match r with
  | Some r => ok r && any_in ks (lower (resp_text r))
  | None => false
  end.

(** The anchors of the homepage kept for the career scan. *)
Fixpoint career_anchors (base : string) (l : list Anchor)
  : list (string * string) :=
  match l with
  | [] => []
  | a :: l' =>
      let txt := lower (text a) in
      let full := normalize_url base (Some (href a)) in
      if negb (truthy full) then career_anchors base l'
      else if any_in CAREER_KEYWORDS (lower (href a)) ||
              any_in CAREER_KEYWORDS txt
      then (or_empty full, txt) :: career_anchors base l'
      else career_anchors base l'
  end.

(** The slug of the last-resort guess:
    [re.sub(r"[^a-z0-9\-\.]", "", company_name.lower())]. *)
Definition slug_char (c : ascii) : bool :=
  islower c || isdigit c || Ascii.eqb c "-" || Ascii.eqb c ".".

Definition guess_site (company_name : string) : string :=
  "https://www." +:+ filter_chars slug_char (lower company_name).

(** The posting links of one rendered page are added to the set, each cut
    at its first question mark. *)
Definition add_posting_links (search_url : string) (l : list Anchor)
    (job_urls : gset (option string)) : gset (option string) :=
  fold_left
    (fun acc a =>
       if contains "/jobs/view/" (href a)
       then {[ normalize_url search_url (Some (first (split "?" (href a)))) ]} ∪ acc
       else acc)
    l job_urls.

(** *** Effectful code *)
Section WithEnv.
Context (env : Env).

Fixpoint safe_get_from (attempts : nat) (url : option string)
  : IO (option Response) :=
  match attempts with
  | O => mret None
  | S n =>
      r ← attempt (r ← requests_get env url;
                   raise_for_status r;;
                   mret r);
      match r with
      | Some r => mret (Some r)
      | None => safe_get_from n url
      end
  end.

Definition safe_get (url : option string) : IO (option Response) :=
  safe_get_from MAX_RETRIES url.

(** The final URL of a response that is truthy and has one. *)
Definition final_url (r : Response) : option string :=
  if ok r && nonempty (resp_url r) then Some (resp_url r) else None.

Definition resolve_final_url (url : option string) : IO (option string) :=
  if negb (truthy url) then mret None
  else
    r ← attempt (r ← requests_head env url; mret (final_url r));
    match r with
    | Some (Some u) => mret (Some u)
    | _ =>
        (* fallback to GET *)
        r ← attempt (r ← requests_get env url; mret (final_url r));
        match r with
        | Some (Some u) => mret (Some u)
        | _ => mret url
        end
    end.

(** [page.wait_for_timeout] only lets time pass and is left out. *)
Definition render_linkedin_job_with_playwright (job_url : option string)
  : IO (option string * option string) :=
  if negb (PLAYWRIGHT_AVAILABLE env) then mret (None, None)
  else
    r ← attempt (
      launch env;;
      goto env job_url;;
      html ← content env;
      close env;;
      let soup := BeautifulSoup env html in
      let company_name := company_name_heuristics soup in
      let candidate_site := website_anchor (anchors soup) in
      let candidate_site :=
        if negb (truthy candidate_site)
        then first_external_link soup (Some "linkedin.com")
        else candidate_site in
      mret (company_name, candidate_site));
    match r with
    | Some res => mret res
    | None => mret (None, None)
    end.

Definition extract_linkedin_job_requests (job_url : option string)
  : IO (option string * option string) :=
  r ← safe_get job_url;
  match r with
  | Some resp =>
      if falsy r then mret (None, None)
      else
        let soup := BeautifulSoup env (resp_text resp) in
        let company_name := company_name_heuristics soup in
        let company_site := first_external_link soup (Some "linkedin.com") in
        mret (company_name, company_site)
  | None => mret (None, None)
  end.

Definition search_company_site_duckduckgo (company_name : option string)
  : IO (option string) :=
  if negb (truthy company_name) then mret None
  else
    let query := or_empty company_name +:+ " official website" in
    let url := "https://duckduckgo.com/html/" in
    r ← attempt (resp ← requests_post env url query;
                 raise_for_status resp;;
                 mret resp);
    match r with
    | None => mret None
    | Some resp =>
        let soup := BeautifulSoup env (resp_text resp) in
        match result_a soup with
        | Some (Some h) =>
            if nonempty h then mret (Some h)
            else mret (first_external_link soup None)
        | _ => mret (first_external_link soup None)
        end
    end.

(** The loop over the conventional paths. *)
Fixpoint probe_paths (keywords : list string) (base : string)
    (paths : list string) : IO (option string) :=
  match paths with
  | [] => mret None
  | p :: rest =>
      let candidate := urljoin base p in
      r ← safe_get (Some candidate);
      if body_has keywords r then mret (Some candidate)
      else probe_paths keywords base rest
  end.

(** The loop over the homepage anchors that mention careers. *)
Fixpoint first_career_hit (l : list (string * string)) : IO (option string) :=
  match l with
  | [] => mret None
  | (full, _) :: rest =>
      rr ← safe_get (Some full);
      if body_has (CAREER_KEYWORDS ++ JOB_KEYWORDS) rr then mret (Some full)
      else first_career_hit rest
  end.

(** The loop over the anchors of the footer. *)
Fixpoint footer_scan (base : string) (l : list Anchor) : IO (option string) :=
  match l with
  | [] => mret None
  | a :: rest =>
      let full := normalize_url base (Some (href a)) in
      if truthy full && any_in CAREER_KEYWORDS (lower (or_empty full)) then
        rr ← safe_get full;
        if negb (falsy rr) then mret full else footer_scan base rest
      else footer_scan base rest
  end.

Definition find_career_page (company_site_url : option string)
  : IO (option string) :=
  if negb (truthy company_site_url) then mret None
  else
    (* resolve final *)
    company_site_url ← resolve_final_url company_site_url;
    let site := or_empty company_site_url in
    let parsed := urlparse site "" in
    let parsed :=
      if negb (nonempty (scheme parsed))
      then urlparse ("https://" +:+ site) ""
      else parsed in
    let base := scheme parsed +:+ "://" +:+ netloc parsed in
    (* try common paths *)
    found ← probe_paths (CAREER_KEYWORDS ++ JOB_KEYWORDS) base
              ["/careers"; "/careers/"; "/jobs"; "/jobs/"; "/about/careers";
               "/company/careers"; "/join-us"];
    match found with
    | Some candidate => mret (Some candidate)
    | None =>
        (* scan homepage *)
        r ← safe_get (Some base);
        match r with
        | None => mret None
        | Some resp =>
            if falsy r then mret None
            else
              let soup := BeautifulSoup env (resp_text resp) in
              found ← first_career_hit (career_anchors base (anchors soup));
              match found with
              | Some full => mret (Some full)
              | None =>
                  (* footer *)
                  found ← match footer soup with
                          | Some l => footer_scan base l
                          | None => mret None
                          end;
                  match found with
                  | Some full => mret (Some full)
                  | None =>
                      (* script scanning for ATS endpoints *)
                      mret (scan_scripts (scripts soup))
                  end
              end
        end
    end.

(** The loop over the anchors of the career page. *)
Fixpoint first_job_anchor (career_url : string) (l : list Anchor)
  : option string :=
  match l with
  | [] => None
  | a :: rest =>
      let txt := lower (text a) in
      if any_in JOB_KEYWORDS (lower (href a)) || any_in JOB_KEYWORDS txt then
        let candidate := normalize_url career_url (Some (href a)) in
        if truthy candidate
           && negb (startswith (lower (or_empty candidate)) "javascript:")
           && negb (contains "mailto:" (or_empty candidate))
        then candidate
        else first_job_anchor career_url rest
      else first_job_anchor career_url rest
  end.

Definition extract_one_job_from_career (career_url : option string)
  : IO (option string) :=
  if negb (truthy career_url) then mret None
  else
    r ← safe_get career_url;
    match r with
    | None => mret None
    | Some resp =>
        if falsy r then mret None
        else
          let soup := BeautifulSoup env (resp_text resp) in
          match first_job_anchor (or_empty career_url) (anchors soup) with
          | Some candidate => mret (Some candidate)
          | None =>
              if is_ats_url career_url then mret career_url
              else
                let parsed := urlparse (or_empty career_url) "" in
                let base := scheme parsed +:+ "://" +:+ netloc parsed in
                probe_paths JOB_KEYWORDS base
                  ["/jobs"; "/openings"; "/careers/jobs"]
          end
    end.

(** The body of [for i in range(max_scrolls)]; [n] iterations are left. *)
Fixpoint scroll_loop (n : nat) (search_url : string)
    (job_urls : gset (option string)) (prev : option nat)
  : IO (gset (option string)) :=
  match n with
  | O => mret job_urls
  | S n' =>
      evaluate env "window.scrollBy(0, window.innerHeight * 2)";;
      html ← content env;
      let soup := BeautifulSoup env html in
      let job_urls := add_posting_links search_url (anchors soup) job_urls in
      let curr := size job_urls in
      if match prev with Some p => Nat.eqb curr p | None => false end
      then mret job_urls
      else scroll_loop n' search_url job_urls (Some curr)
  end.

Definition scrape_jobs_from_search_page (search_url : string)
    (max_scrolls : nat) : IO (list (option string)) :=
  let job_urls : gset (option string) := ∅ in
  if negb (PLAYWRIGHT_AVAILABLE env) then mret []
  else
    launch env;;
    goto env (Some search_url);;
    job_urls ← scroll_loop max_scrolls search_url job_urls None;
    close env;;
    mret (elements job_urls).

(** Steps A to G of [process_single_job]: the four fields of the
    posting, before the decision to save. *)
Definition resolve_fields (job_url : option string) (use_playwright : bool)
  : IO (option string * option string * option string * option string) :=
  (* Step A: Try Playwright render extraction *)
  let company_name : option string := None in
  let company_website : option string := None in
  '(company_name, company_website) ←
    (if use_playwright && PLAYWRIGHT_AVAILABLE env then
       '(cname, csite) ← render_linkedin_job_with_playwright job_url;
       mret (or_else cname company_name, or_else csite company_website)
     else mret (company_name, company_website));
  (* Step B: fallback requests extraction *)
  '(company_name, company_website) ←
    (if negb (truthy company_name) || negb (truthy company_website) then
       '(cname2, csite2) ← extract_linkedin_job_requests job_url;
       mret (or_else company_name cname2, or_else company_website csite2)
     else mret (company_name, company_website));
  (* Step C: resolve short / redirect links and avoid linkedin links *)
  company_website ←
    (if truthy company_website then
       final_site ← resolve_final_url company_website;
       if is_linkedin_domain final_site then mret None
       else mret final_site
     else mret company_website);
  (* Step D: If still no company_website, try searching by company_name *)
  company_website ←
    (if negb (truthy company_website) && truthy company_name then
       found ← search_company_site_duckduckgo company_name;
       if truthy found then
         final ← resolve_final_url found;
         if negb (is_linkedin_domain final) then mret final
         else mret company_website
       else mret company_website
     else mret company_website);
  (* Step E: last resort guess from company name *)
  let company_website :=
    if negb (truthy company_website) && truthy company_name
    then Some (guess_site (or_empty company_name))
    else company_website in
  (* Step F: find career page *)
  career_page ←
    (if truthy company_website then find_career_page company_website
     else mret None);
  (* Sanity: don't accept career_page that is linkedin domain *)
  let career_page :=
    if truthy career_page && is_linkedin_domain career_page then None
    else career_page in
  (* Step G: from career page extract one job *)
  job_opening ←
    (if truthy career_page then extract_one_job_from_career career_page
     else mret None);
  let job_opening :=
    if truthy job_opening && is_linkedin_domain job_opening then None
    else job_opening in
  mret (company_name, company_website, career_page, job_opening).

Definition process_single_job (job_url : option string)
    (use_playwright : bool) : IO (option Row) :=
  '(company_name, company_website, career_page, job_opening) ←
    resolve_fields job_url use_playwright;
  (* Save only if career_page found *)
  if negb (truthy career_page) then mret None
  else
    let row := mkRow (or_empty company_name) (or_empty company_website)
                     (or_empty career_page) (or_empty job_opening) in
    save_row row;;
    mret (Some row).

(** The loop of [run_main] over the discovered postings. *)
Fixpoint process_all (job_urls : list (option string))
    (use_playwright : bool) : IO unit :=
  match job_urls with
  | [] => mret ()
  | j :: rest =>
      process_single_job j use_playwright;;
      process_all rest use_playwright
  end.

Definition run_main (input_url : string) (use_playwright : bool) : IO unit :=
  let input_url := strip input_url in
  if contains "/jobs/view/" input_url then
    (* single job posting *)
    process_single_job (Some input_url) use_playwright;;
    mret ()
  else
    (* treat as search/list page *)
    job_urls ←
      (if use_playwright && PLAYWRIGHT_AVAILABLE env
       then scrape_jobs_from_search_page input_url 20
       else mret []);
    match job_urls with
    | [] => mret ()
    | _ => process_all job_urls use_playwright
    end.

End WithEnv.

End Agent.

(** ** [part2_agent_prev.py], the earlier variant of the pipeline *)
Module Prev.
Import Py urllib.

Definition MAX_RETRIES : nat := 3.

Definition CAREER_KEYWORDS : list string :=
  ["careers"; "jobs"; "join-us"; "joinus"; "work-with-us"; "vacancies";
   "open-positions"; "opportunities"; "roles"; "positions"; "join"; "hiring"].
Definition JOB_KEYWORDS : list string :=
  ["job"; "position"; "openings"; "apply"; "career"; "careers"; "roles";
   "/jobs/"; "/open-positions/"].

Definition normalize_url (base : string) (href : option string)
  : option string :=
  if negb (truthy href) then None
  else
    let href := strip (or_empty href) in
    if startswith href "//" then
      let parsed_base := urlparse base "" in
      let scheme :=
        if nonempty (scheme parsed_base) then scheme parsed_base
        else "https" in
      Some (scheme +:+ ":" +:+ href)
    else Some (urljoin base href).











Section WithEnv.
Context (env : Env).

Fixpoint safe_get_from (attempts : nat) (url : option string)
  : IO (option Response) :=
  match attempts with
  | O => mret None
  | S n =>
      r ← attempt (r ← requests_get env url;
                   raise_for_status r;;
                   mret r);
      match r with
      | Some r => mret (Some r)
      | None => safe_get_from n url
      end
  end.

Definition safe_get (url : option string) : IO (option Response) :=
  safe_get_from MAX_RETRIES url.




(** [r and r.status_code == 200], and the same with the keyword test
    on the body. *)
Definition status_200 (r : option Response) : bool :=
  match r with
  | Some r => ok r && Nat.eqb (status_code r) 200
  | None => false
  end.

Definition career_body_200 (r : option Response) : bool :=
  match r with
  | Some r =>
      ok r && Nat.eqb (status_code r) 200 &&
      any_in CAREER_KEYWORDS (lower (resp_text r))
  | None => false
  end.

Fixpoint probe_paths (base_origin : string) (paths : list string)
  : IO (option string) :=
  match paths with
  | [] => mret None
  | p :: rest =>
      let candidate := urljoin base_origin p in
      r ← safe_get (Some candidate);
      if career_body_200 r then mret (Some candidate)
      else probe_paths base_origin rest
  end.

Fixpoint homepage_scan (base_origin : string) (l : list Anchor)
  : IO (option string) :=
  match l with
  | [] => mret None
  | a :: rest =>
      let txt := lower (text a) in
      let full := normalize_url base_origin (Some (href a)) in
      if any_in CAREER_KEYWORDS (lower (href a)) || any_in CAREER_KEYWORDS txt
      then
        rr ← safe_get full;
        if status_200 rr then mret full else homepage_scan base_origin rest
      else homepage_scan base_origin rest
  end.

Definition find_career_page (company_site_url : option string)
  : IO (option string) :=
  if negb (truthy company_site_url) then mret None
  else
    let url := or_empty company_site_url in
    let base := if startswith url "http" then url else "https://" +:+ url in
    let parsed := urlparse base "" in
    let base_origin := scheme parsed +:+ "://" +:+ netloc parsed in
    (* Common paths *)
    found ← probe_paths base_origin
              ["/careers"; "/jobs"; "/careers/"; "/jobs/"; "/careers.html";
               "/careers/positions"; "/careers/openings"; "/careers-us"];
    match found with
    | Some candidate => mret (Some candidate)
    | None =>
        (* Scan homepage *)
        r ← safe_get (Some base_origin);
        match r with
        | Some resp =>
            if negb (ok resp) then mret None
            else homepage_scan base_origin
                   (anchors (BeautifulSoup env (resp_text resp)))
        | None => mret None
        end
    end.

Fixpoint first_job_anchor (career_url : string) (l : list Anchor)
  : option string :=
  match l with
  | [] => None
  | a :: rest =>
      let txt := lower (text a) in
      if any_in JOB_KEYWORDS (lower (href a)) || any_in JOB_KEYWORDS txt then
        let candidate := normalize_url career_url (Some (href a)) in
        if truthy candidate
           && negb (startswith (or_empty candidate) "javascript:")
           && negb (contains "mailto:" (or_empty candidate))
        then candidate
        else first_job_anchor career_url rest
      else first_job_anchor career_url rest
  end.

Definition extract_one_job_from_career (career_url : option string)
  : IO (option string) :=
  r ← safe_get career_url;
  match r with
  | None => mret None
  | Some resp =>
      if negb (ok resp) then mret None
      else
        let soup := BeautifulSoup env (resp_text resp) in
        match first_job_anchor (or_empty career_url) (anchors soup) with
        | Some candidate => mret (Some candidate)
        | None => mret career_url (* fallback to career page itself if ATS *)
        end
  end.

(** The scroll loop: it stops when the page height stops changing. *)
Fixpoint scroll_loop (n : nat) (prev_height : option nat) : IO unit :=
  match n with
  | O => mret ()
  | S n' =>
      evaluate env "window.scrollTo(0, document.body.scrollHeight)";;
      curr_height ← evaluate env "document.body.scrollHeight";
      if bool_decide (prev_height = curr_height) then mret ()
      else scroll_loop n' curr_height
  end.

Definition add_posting_links (search_url : string) (l : list Anchor)
    (job_urls : gset (option string)) : gset (option string) :=
  fold_left
    (fun acc a =>
       if contains "/jobs/view/" (href a)
       then {[ normalize_url search_url (Some (href a)) ]} ∪ acc
       else acc)
    l job_urls.






End WithEnv.

End Prev.

(** ** Notions used to state the properties *)

(** The two tiers of the redirect resolver: the final URL that the HEAD
    request yields on history [h], and the one that the GET request yields
    after it. *)
Definition head_tier (env : Env) (h : History) (url : string) : option string :=
  http_head env h url ≫= Agent.final_url.

Definition get_tier (env : Env) (h : History) (url : string) : option string :=
  http_get env (h ++ [EvHead url]) url ≫= Agent.final_url.


(** A computation that writes nothing to the sink. *)
Definition nosave {A} (m : IO A) : Prop :=
  ∀ h, saved_rows (snd (m h)) = saved_rows h.

(** A computation that never lets an exception escape. *)
Definition noraise {A} (m : IO A) : Prop :=
  ∀ h, is_Some (fst (m h)).

(** Every value that a computation returns satisfies [P]. *)
Definition returns {A} (P : A → Prop) (m : IO A) : Prop :=
  ∀ h a h', m h = (Some a, h') → P a.

(** No anchor of the list mentions a job keyword, in its href or in its
    text. *)
Definition no_job_anchor (keywords : list string) (l : list Anchor) : bool :=
  forallb (fun a => negb (Py.any_in keywords (Py.lower (href a)) ||
                          Py.any_in keywords (Py.lower (text a)))) l.

(** The calls of one iteration of the scroll loop, and the history after
    [k] iterations that started on history [h]. *)
Definition scroll_script : string := "window.scrollBy(0, window.innerHeight * 2)".

Definition scroll_events : list Event := [EvEvaluate scroll_script; EvContent].

Fixpoint history_after (h : History) (k : nat) : History :=
  match k with
  | O => h
  | S k' => history_after (h ++ scroll_events) k'
  end.

(** The set of posting identifiers after [k] iterations that started on
    history [h] with the set [s]: the page of each iteration is the one the
    world serves at that point of the history. *)
Fixpoint set_after (env : Env) (search_url : string) (k : nat) (h : History)
    (s : gset (option string)) : gset (option string) :=
  match k with
  | O => s
  | S k' =>
      match page_content env (h ++ [EvEvaluate scroll_script]) with
      | Some html =>
          set_after env search_url k' (h ++ scroll_events)
            (Agent.add_posting_links search_url
               (anchors (html_parser env html)) s)
      | None => s
      end
  end.

(** The size that the loop compares with at iteration [i] (counted from 1)
    when it starts with [prev] on history [h] and set [s]. *)
Definition prev_at (env : Env) (url : string) (h : History)
    (s : gset (option string)) (prev : option nat) (i : nat) : option nat :=
  if Nat.eqb i 1 then prev
  else Some (size (set_after env url (i - 1) h s)).

(** The number of scroll actions in a history. *)
Fixpoint scrolls (h : History) : nat :=
  match h with
  | [] => 0
  | EvEvaluate _ :: h' => S (scrolls h')
  | _ :: h' => scrolls h'
  end.

(** The character [c] does not occur in [s]. *)
Definition free (c : ascii) (s : string) : bool :=
  Py.all_chars (fun d => negb (Ascii.eqb d c)) s.






(** ** Concrete worlds for the examples *)
Module Worlds.

Definition empty_soup : Soup := mkSoup None None None [] None [] None.

Definition lookup {A} (tbl : list (string * A)) (k : string) : option A :=
  snd <$> List.find (fun kv => String.eqb (fst kv) k) tbl.

Definition page (url body : string) : string * Response :=
  (url, mkResponse 200 url body).

(** A posting page with a title and nothing else. *)
Definition titled (t : string) : Soup :=
  mkSoup None None (Some (Some t)) [] None [] None.

(** A world without browser in which nothing answers. *)
Definition silent : Env := {|
  PLAYWRIGHT_AVAILABLE := false;
  http_head := fun _ _ => None;
  http_get := fun _ _ => None;
  http_post := fun _ _ _ => None;
  browser_launch := fun _ => false;
  page_goto := fun _ _ => false;
  page_evaluate := fun _ _ => None;
  page_content := fun _ => None;
  browser_close := fun _ => false;
  html_parser := fun _ => empty_soup
|}.

(** A short link whose HEAD request is refused and whose GET request
    lands on the company site. *)
Definition short_link : Env := {|
  PLAYWRIGHT_AVAILABLE := false;
  http_head := fun _ _ => None;
  http_get := fun _ u =>
    if String.eqb u "https://lnkd.in/abc"
    then Some (mkResponse 200 "https://acme.example/" "")
    else None;
  http_post := fun _ _ _ => None;
  browser_launch := fun _ => false;
  page_goto := fun _ _ => false;
  page_evaluate := fun _ _ => None;
  page_content := fun _ => None;
  browser_close := fun _ => false;
  html_parser := fun _ => empty_soup
|}.

(** A posting of a company called "LinkedIn.com": no company link on the
    page, the search fails, and the homepage of the guessed site links to
    a career page elsewhere. *)
Definition guessed_site : Env := {|
  PLAYWRIGHT_AVAILABLE := false;
  http_head := fun _ _ => None;
  http_get := fun _ u =>
    lookup
      [page "https://www.linkedin.com/jobs/view/1" "posting";
       page "https://www.linkedin.com" "home";
       page "https://careers.example.org/" "our openings"] u;
  http_post := fun _ _ _ => None;
  browser_launch := fun _ => false;
  page_goto := fun _ _ => false;
  page_evaluate := fun _ _ => None;
  page_content := fun _ => None;
  browser_close := fun _ => false;
  html_parser := fun t =>
    if String.eqb t "posting" then
      mkSoup None None (Some (Some "Engineer at LinkedIn.com | LinkedIn"))
             [] None [] None
    else if String.eqb t "home" then
      mkSoup None None None
             [mkAnchor "https://careers.example.org/" "Careers"] None [] None
    else empty_soup
|}.



(** A career page of an ordinary company site: it answers, and it has
    no anchor at all. *)
Definition plain_career_page : Env := {|
  PLAYWRIGHT_AVAILABLE := false;
  http_head := fun _ _ => None;
  http_get := fun _ u =>
    lookup [page "https://acme.example/careers" "work with us"] u;
  http_post := fun _ _ _ => None;
  browser_launch := fun _ => false;
  page_goto := fun _ _ => false;
  page_evaluate := fun _ _ => None;
  page_content := fun _ => None;
  browser_close := fun _ => false;
  html_parser := fun _ => empty_soup
|}.

(** A listing whose postings appear late: the page rendered after the
    first scroll has no posting link, the later ones have one. *)
Definition late_listing : Env := {|
  PLAYWRIGHT_AVAILABLE := true;
  http_head := fun _ _ => None;
  http_get := fun _ _ => None;
  http_post := fun _ _ _ => None;
  browser_launch := fun _ => true;
  page_goto := fun _ _ => true;
  page_evaluate := fun _ _ => Some None;
  page_content := fun h =>
    if existsb (fun e => match e with EvContent => true | _ => false end) h
    then Some "loaded" else Some "loading";
  browser_close := fun _ => true;
  html_parser := fun t =>
    if String.eqb t "loaded" then
      mkSoup None None None [mkAnchor "/jobs/view/7?trk=x" "Engineer"]
             None [] None
    else empty_soup
|}.

End Worlds.

(** * Properties *)

Import Py urllib.

(** ** The monad *)

Lemma bind_run {A B} (m : IO A) (f : A → IO B) (h : History) :
  (m ≫= f) h =
  match m h with
  | (Some a, h') => f a h'
  | (None, h') => (None, h')
  end.
Proof. reflexivity. Qed.

Lemma ret_run {A} (a : A) (h : History) : (mret a : IO A) h = (Some a, h).
Proof. reflexivity. Qed.

Lemma attempt_run {A} (m : IO A) (h : History) :
  attempt m h = (Some (fst (m h)), snd (m h)).
Proof. unfold attempt. destruct (m h) as [[a|] h']; reflexivity. Qed.

(** Unfolding of the monad operations. *)
Ltac io_unfold :=
  unfold mbind, mret, IO_bind, IO_ret, attempt, call, raise, save_row in *.

Lemma nonempty_neq (s : string) : nonempty s = true ↔ s ≠ "".
Proof. destruct s; simpl; split; congruence. Qed.

(** ** Redirect resolver *)

Lemma final_url_nonempty (r : Response) (u : string) :
  Agent.final_url r = Some u → u ≠ "".
Proof.
  unfold Agent.final_url.
  destruct (ok r); simpl; [|discriminate].
  destruct (nonempty (resp_url r)) eqn:E; [|discriminate].
  intros [= <-]. by apply nonempty_neq.
Qed.

(** The run of the resolver, by tiers. *)
Lemma resolve_final_url_run (env : Env) (h : History) (url : string) :
  nonempty url = true →
  Agent.resolve_final_url env (Some url) h =
  match head_tier env h url with
  | Some u1 => (Some (Some u1), h ++ [EvHead url])
  | None => (Some (Some (default url (get_tier env h url))),
             h ++ [EvHead url; EvGet url])
  end.
Proof.
  intros Hne.
  unfold Agent.resolve_final_url, head_tier, get_tier.
  cbn [truthy]. rewrite Hne. cbn [negb].
  unfold requests_head, requests_get. io_unfold. cbn -[app].
  destruct (http_head env h url) as [r|]; cbn -[app].
  - destruct (Agent.final_url r) as [u1|]; cbn -[app]; [reflexivity|].
    destruct (http_get env (h ++ [EvHead url]) url) as [r2|]; cbn -[app];
      rewrite <- ?app_assoc; [|reflexivity].
    destruct (Agent.final_url r2); reflexivity.
  - destruct (http_get env (h ++ [EvHead url]) url) as [r2|]; cbn -[app];
      rewrite <- ?app_assoc; [|reflexivity].
    destruct (Agent.final_url r2); reflexivity.
Qed.

(** C3.  For a non-empty URL the resolver returns a non-empty URL, never
    [None]: the HEAD request is made first and, when it yields a final URL,
    that URL is returned and no other request is made; on any failure of
    the HEAD tier the GET request is made and its final URL returned; when
    both tiers fail the input comes back unchanged. *)
Theorem resolve_final_url_tiers (env : Env) (h : History) (url : string) :
  url ≠ "" →
  ∃ u, fst (Agent.resolve_final_url env (Some url) h) = Some (Some u) ∧
       u ≠ "" ∧
       match head_tier env h url with
       | Some u1 =>
           u = u1 ∧
           snd (Agent.resolve_final_url env (Some url) h) = h ++ [EvHead url]
       | None =>
           snd (Agent.resolve_final_url env (Some url) h)
             = h ++ [EvHead url; EvGet url] ∧
           u = default url (get_tier env h url)
       end.
Proof.
  intros Hne. apply nonempty_neq in Hne.
  rewrite (resolve_final_url_run env h url Hne).
  unfold head_tier, get_tier.
  destruct (http_head env h url) as [r|]; cbn -[app].
  - destruct (Agent.final_url r) as [u1|] eqn:Hf; cbn -[app].
    + exists u1. eauto using final_url_nonempty.
    + eexists. split; [done|]. split; [|done].
      destruct (http_get env (h ++ [EvHead url]) url) as [r2|]; cbn.
      * destruct (Agent.final_url r2) eqn:Hg; cbn;
          [by eapply final_url_nonempty | by apply nonempty_neq].
      * by apply nonempty_neq.
  - eexists. split; [done|]. split; [|done].
    destruct (http_get env (h ++ [EvHead url]) url) as [r2|]; cbn.
    + destruct (Agent.final_url r2) eqn:Hg; cbn;
        [by eapply final_url_nonempty | by apply nonempty_neq].
    + by apply nonempty_neq.
Qed.

(** The short link "https://lnkd.in/abc": HEAD is refused, GET lands on the
    company site. *)
Lemma resolve_final_url_tiers_witness :
  ∃ u, fst (Agent.resolve_final_url Worlds.short_link
              (Some "https://lnkd.in/abc") []) = Some (Some u) ∧
       u ≠ "" ∧
       match head_tier Worlds.short_link [] "https://lnkd.in/abc" with
       | Some u1 =>
           u = u1 ∧
           snd (Agent.resolve_final_url Worlds.short_link
                  (Some "https://lnkd.in/abc") [])
             = [] ++ [EvHead "https://lnkd.in/abc"]
       | None =>
           snd (Agent.resolve_final_url Worlds.short_link
                  (Some "https://lnkd.in/abc") [])
             = [] ++ [EvHead "https://lnkd.in/abc"; EvGet "https://lnkd.in/abc"] ∧
           u = default "https://lnkd.in/abc"
                       (get_tier Worlds.short_link [] "https://lnkd.in/abc")
       end.
Proof.
  apply (resolve_final_url_tiers Worlds.short_link [] "https://lnkd.in/abc").
  discriminate.
Defined.

(** ** What a computation may do to the sink, and whether it may raise *)

Lemma saved_rows_app (h l : History) :
  saved_rows (h ++ l) = saved_rows h ++ saved_rows l.
Proof.
  induction h as [|e h IH]; [reflexivity|].
  destruct e; cbn; rewrite ?IH; reflexivity.
Qed.

Lemma nosave_ret {A} (a : A) : nosave (mret a : IO A).
Proof. intros h. reflexivity. Qed.

Lemma nosave_raise {A} : nosave (raise : IO A).
Proof. intros h. reflexivity. Qed.

Lemma nosave_bind {A B} (m : IO A) (f : A → IO B) :
  nosave m → (∀ a, nosave (f a)) → nosave (m ≫= f).
Proof.
  intros Hm Hf h. rewrite bind_run. specialize (Hm h).
  destruct (m h) as [[a|] h']; cbn in *; [|done].
  by rewrite Hf.
Qed.

Lemma nosave_attempt {A} (m : IO A) : nosave m → nosave (attempt m).
Proof. intros Hm h. rewrite attempt_run. apply Hm. Qed.

Lemma nosave_call {A} (e : Event) (answer : History → option A) :
  saved_rows [e] = [] → nosave (call e answer).
Proof.
  intros He h. unfold call. cbn [snd].
  by rewrite saved_rows_app, He, app_nil_r.
Qed.

Lemma noraise_ret {A} (a : A) : noraise (mret a : IO A).
Proof. intros h. by eexists. Qed.

Lemma noraise_bind {A B} (m : IO A) (f : A → IO B) :
  noraise m → (∀ a, noraise (f a)) → noraise (m ≫= f).
Proof.
  intros Hm Hf h. rewrite bind_run. destruct (Hm h) as [a Ha].
  destruct (m h) as [[a'|] h']; cbn in *; [|done]. apply Hf.
Qed.

Lemma noraise_attempt {A} (m : IO A) : noraise (attempt m).
Proof. intros h. rewrite attempt_run. by eexists. Qed.

Create HintDb io discriminated.

#[local] Hint Resolve nosave_ret nosave_raise nosave_attempt noraise_ret
  noraise_attempt : io.

(** Goals about [nosave] and [noraise] follow the shape of the code. *)
Ltac io_step :=
  match goal with
  | |- nosave (_ ≫= _) => apply nosave_bind
  | |- noraise (_ ≫= _) => apply noraise_bind
  | |- nosave (attempt _) => apply nosave_attempt
  | |- nosave (call _ _) => apply nosave_call; reflexivity
  | |- nosave (match ?x with _ => _ end) => destruct x
  | |- noraise (match ?x with _ => _ end) => destruct x
  | |- nosave (if ?b then _ else _) => destruct b
  | |- noraise (if ?b then _ else _) => destruct b
  | |- ∀ _, _ => intro
  end.

Ltac io_auto := repeat first [solve [eauto with io] | io_step].

Section Quiet.
Context (env : Env).

Lemma nosave_requests_get url : nosave (requests_get env url).
Proof. unfold requests_get. io_auto. Qed.

Lemma nosave_requests_head url : nosave (requests_head env url).
Proof. unfold requests_head. io_auto. Qed.

Lemma nosave_requests_post url q : nosave (requests_post env url q).
Proof. unfold requests_post. io_auto. Qed.

Lemma nosave_raise_for_status r : nosave (raise_for_status r).
Proof. unfold raise_for_status. io_auto. Qed.

Lemma nosave_launch : nosave (launch env).
Proof. unfold launch. io_auto. Qed.

Lemma nosave_goto url : nosave (goto env url).
Proof. unfold goto. io_auto. Qed.

Lemma nosave_evaluate script : nosave (evaluate env script).
Proof. unfold evaluate. io_auto. Qed.

Lemma nosave_content : nosave (content env).
Proof. unfold content. io_auto. Qed.

Lemma nosave_close : nosave (close env).
Proof. unfold close. io_auto. Qed.

Hint Resolve nosave_requests_get nosave_requests_head nosave_requests_post
  nosave_raise_for_status nosave_launch nosave_goto nosave_evaluate
  nosave_content nosave_close : io.

Lemma nosave_safe_get_from n url : nosave (Agent.safe_get_from env n url).
Proof. induction n; cbn [Agent.safe_get_from]; io_auto. Qed.

Lemma noraise_safe_get_from n url : noraise (Agent.safe_get_from env n url).
Proof. induction n; cbn [Agent.safe_get_from]; io_auto. Qed.

Lemma nosave_safe_get url : nosave (Agent.safe_get env url).
Proof. apply nosave_safe_get_from. Qed.

Lemma noraise_safe_get url : noraise (Agent.safe_get env url).
Proof. apply noraise_safe_get_from. Qed.

Hint Resolve nosave_safe_get noraise_safe_get : io.

Lemma nosave_resolve_final_url url : nosave (Agent.resolve_final_url env url).
Proof. unfold Agent.resolve_final_url. io_auto. Qed.

Lemma noraise_resolve_final_url url : noraise (Agent.resolve_final_url env url).
Proof. unfold Agent.resolve_final_url. io_auto. Qed.

Lemma nosave_render url :
  nosave (Agent.render_linkedin_job_with_playwright env url).
Proof. unfold Agent.render_linkedin_job_with_playwright. io_auto. Qed.

Lemma noraise_render url :
  noraise (Agent.render_linkedin_job_with_playwright env url).
Proof. unfold Agent.render_linkedin_job_with_playwright. io_auto. Qed.

Lemma nosave_extract_requests url :
  nosave (Agent.extract_linkedin_job_requests env url).
Proof. unfold Agent.extract_linkedin_job_requests. io_auto. Qed.

Lemma noraise_extract_requests url :
  noraise (Agent.extract_linkedin_job_requests env url).
Proof. unfold Agent.extract_linkedin_job_requests. io_auto. Qed.

Lemma nosave_search name :
  nosave (Agent.search_company_site_duckduckgo env name).
Proof. unfold Agent.search_company_site_duckduckgo. io_auto. Qed.

Lemma noraise_search name :
  noraise (Agent.search_company_site_duckduckgo env name).
Proof. unfold Agent.search_company_site_duckduckgo. io_auto. Qed.

Lemma nosave_probe_paths ks base paths :
  nosave (Agent.probe_paths env ks base paths).
Proof. induction paths; cbn [Agent.probe_paths]; io_auto. Qed.

Lemma noraise_probe_paths ks base paths :
  noraise (Agent.probe_paths env ks base paths).
Proof. induction paths; cbn [Agent.probe_paths]; io_auto. Qed.

Lemma nosave_first_career_hit l : nosave (Agent.first_career_hit env l).
Proof. induction l as [|[] l IH]; cbn [Agent.first_career_hit]; io_auto. Qed.

Lemma noraise_first_career_hit l : noraise (Agent.first_career_hit env l).
Proof. induction l as [|[] l IH]; cbn [Agent.first_career_hit]; io_auto. Qed.

Lemma nosave_footer_scan base l : nosave (Agent.footer_scan env base l).
Proof. induction l; cbn [Agent.footer_scan]; io_auto. Qed.

Lemma noraise_footer_scan base l : noraise (Agent.footer_scan env base l).
Proof. induction l; cbn [Agent.footer_scan]; io_auto. Qed.

Hint Resolve nosave_resolve_final_url noraise_resolve_final_url
  nosave_render noraise_render nosave_extract_requests
  noraise_extract_requests nosave_search noraise_search
  nosave_probe_paths noraise_probe_paths nosave_first_career_hit
  noraise_first_career_hit nosave_footer_scan noraise_footer_scan : io.

Lemma nosave_find_career_page url : nosave (Agent.find_career_page env url).
Proof. unfold Agent.find_career_page. io_auto. Qed.

Lemma noraise_find_career_page url : noraise (Agent.find_career_page env url).
Proof. unfold Agent.find_career_page. io_auto. Qed.

Lemma nosave_extract_one_job url :
  nosave (Agent.extract_one_job_from_career env url).
Proof. unfold Agent.extract_one_job_from_career. io_auto. Qed.

Lemma noraise_extract_one_job url :
  noraise (Agent.extract_one_job_from_career env url).
Proof. unfold Agent.extract_one_job_from_career. io_auto. Qed.

Hint Resolve nosave_find_career_page noraise_find_career_page
  nosave_extract_one_job noraise_extract_one_job : io.



Lemma nosave_scroll_loop n url s prev :
  nosave (Agent.scroll_loop env n url s prev).
Proof.
  revert s prev. induction n; intros; cbn [Agent.scroll_loop]; io_auto.
Qed.

Hint Resolve nosave_scroll_loop : io.

Lemma nosave_scrape url n :
  nosave (Agent.scrape_jobs_from_search_page env url n).
Proof. unfold Agent.scrape_jobs_from_search_page. io_auto. Qed.

End Quiet.

(** ** Emission of rows *)



(** ** Listing without postings *)

(** C5.  Without the rendering collaborator the listing expansion returns
    the empty list, and it does so without any call to the outside.  A run
    on a listing page (an input without "/jobs/view/") whose expansion
    yields no posting identifier completes normally: no exception, and the
    sink is left as it was. *)
Theorem listing_without_postings (env : Env) (input : string) (up : bool)
    (h : History) :
  contains "/jobs/view/" (strip input) = false →
  (PLAYWRIGHT_AVAILABLE env = false ∨
   fst (Agent.scrape_jobs_from_search_page env (strip input) 20 h) = Some []) →
  (PLAYWRIGHT_AVAILABLE env = false →
   ∀ url n, Agent.scrape_jobs_from_search_page env url n h = (Some [], h)) ∧
  ∃ h', Agent.run_main env input up h = (Some (), h') ∧
        saved_rows h' = saved_rows h.
Proof.
  intros Hlist Hzero. split.
  { intros Hpw url n. unfold Agent.scrape_jobs_from_search_page.
    by rewrite Hpw. }
  unfold Agent.run_main. rewrite Hlist, bind_run.
  destruct (up && PLAYWRIGHT_AVAILABLE env) eqn:Hb.
  - destruct Hzero as [Hpw|Hzero].
    { rewrite Hpw, andb_false_r in Hb. discriminate. }
    pose proof (nosave_scrape env (strip input) 20 h) as Hs.
    destruct (Agent.scrape_jobs_from_search_page env (strip input) 20 h)
      as [r h'] eqn:E.
    cbn in Hzero, Hs. subst r. exists h'. by split.
  - exists h. by split.
Qed.

(** A listing URL in a world without browser. *)
Lemma listing_without_postings_witness :
  (PLAYWRIGHT_AVAILABLE Worlds.silent = false →
   ∀ url n, Agent.scrape_jobs_from_search_page Worlds.silent url n [] = (Some [], [])) ∧
  ∃ h', Agent.run_main Worlds.silent
          "https://www.linkedin.com/jobs/search?keywords=rocq" true []
          = (Some (), h') ∧
        saved_rows h' = saved_rows [].
Proof.
  apply (listing_without_postings Worlds.silent
           "https://www.linkedin.com/jobs/search?keywords=rocq" true []).
  - reflexivity.
  - left. reflexivity.
Defined.

(** ** Aggregator domain *)

Lemma returns_ret {A} (P : A → Prop) (a : A) : P a → returns P (mret a : IO A).
Proof. intros Ha h a' h' [= <- _]. exact Ha. Qed.

Lemma returns_bind {A B} (Q : A → Prop) (P : B → Prop) (m : IO A) (f : A → IO B) :
  returns Q m → (∀ a, Q a → returns P (f a)) → returns P (m ≫= f).
Proof.
  intros Hm Hf h b h'. rewrite bind_run.
  destruct (m h) as [[a|] h1] eqn:E; [|discriminate].
  intros Hb. eapply Hf; [|exact Hb]. eapply Hm, E.
Qed.

Lemma returns_any {A} (m : IO A) : returns (fun _ => True) m.
Proof. by intros h a h' _. Qed.

Lemma is_linkedin_domain_falsy (url : option string) :
  truthy url = false → Agent.is_linkedin_domain url = false.
Proof. unfold Agent.is_linkedin_domain. by intros ->. Qed.


(** What the checks of [process_single_job] guarantee for the fields it
    resolves: the career page and the job opening are never classified as
    the aggregator, and the company site is so classified only when it is
    the last-resort guess built from the company name. *)
Lemma resolve_fields_domain_checks (env : Env) (job : option string) (up : bool) :
  returns (fun '(name, site, career, opening) =>
             (Agent.is_linkedin_domain site = true →
              site = Some (Agent.guess_site (or_empty name))) ∧
             Agent.is_linkedin_domain career = false ∧
             Agent.is_linkedin_domain opening = false)
          (Agent.resolve_fields env job up).
Proof.
  unfold Agent.resolve_fields.
  eapply returns_bind; [apply returns_any|]. intros [name0 site0] _.
  eapply returns_bind; [apply returns_any|]. intros [name site1] _.
  eapply (returns_bind (fun w => Agent.is_linkedin_domain w = false)).
  { destruct (truthy site1) eqn:Ht.
    - eapply returns_bind; [apply returns_any|]. intros final _.
      destruct (Agent.is_linkedin_domain final) eqn:Hl;
        by apply returns_ret.
    - apply returns_ret. by apply is_linkedin_domain_falsy. }
  intros site2 Hsite2.
  eapply (returns_bind (fun w => Agent.is_linkedin_domain w = false)).
  { destruct (negb (truthy site2) && truthy name); [|by apply returns_ret].
    eapply returns_bind; [apply returns_any|]. intros found _.
    destruct (truthy found); [|by apply returns_ret].
    eapply returns_bind; [apply returns_any|]. intros final _.
    destruct (Agent.is_linkedin_domain final) eqn:Hl; by apply returns_ret. }
  intros site3 Hsite3.
  eapply returns_bind; [apply returns_any|]. intros career _.
  eapply returns_bind; [apply returns_any|]. intros opening _.
  apply returns_ret. repeat split.
  - destruct (negb (truthy site3) && truthy name); [done|congruence].
  - destruct (truthy career) eqn:Ht; cbn [andb].
    + by destruct (Agent.is_linkedin_domain career) eqn:Hl.
    + by apply is_linkedin_domain_falsy.
  - destruct (truthy opening) eqn:Ht; cbn [andb].
    + by destruct (Agent.is_linkedin_domain opening) eqn:Hl.
    + by apply is_linkedin_domain_falsy.
Qed.

(** The same for the rows that reach the sink. *)
Lemma emitted_row_domain_checks (env : Env) (job : option string) (up : bool)
    (h h' : History) (row : Row) :
  Agent.process_single_job env job up h = (Some (Some row), h') →
  Agent.is_linkedin_domain (Some (career_page row)) = false ∧
  Agent.is_linkedin_domain (Some (job_url row)) = false.
Proof.
  unfold Agent.process_single_job. rewrite bind_run.
  destruct (Agent.resolve_fields env job up h) as [[[[[name site] career] opening]|] h1] eqn:E;
    [|discriminate].
  pose proof (resolve_fields_domain_checks env job up h _ h1 E) as (_ & Hc & Ho).
  destruct (truthy career) eqn:Ht; cbn [negb]; [|discriminate].
  io_unfold. intros [= <- _]. cbn [career_page job_url]. split.
  - destruct career; [done|discriminate].
  - destruct opening as [o|]; [done|]. reflexivity.
Qed.

(** C1 at the failing input.  A posting whose company is called
    "LinkedIn.com" and for which neither the page nor the search gives a
    site: the last-resort guess is "https://www.linkedin.com", it is not
    checked against the aggregator domain, and the row that is written
    carries it as [company_website]. *)
Theorem guessed_site_is_aggregator_domain :
  ∃ row h',
    Agent.process_single_job Worlds.guessed_site
      (Some "https://www.linkedin.com/jobs/view/1") true [] = (Some (Some row), h') ∧
    saved_rows h' = [row] ∧
    company_website row = "https://www.linkedin.com" ∧
    career_page row = "https://careers.example.org/" ∧
    Agent.is_linkedin_domain (Some (company_website row)) = true.
Proof. do 2 eexists. vm_compute. repeat split. Qed.


(** ** Job opening extractor *)

Lemma safe_get_from_ok (env : Env) (n : nat) (url : option string) :
  returns (fun r => ∀ resp, r = Some resp → ok resp = true)
          (Agent.safe_get_from env n url).
Proof.
  induction n as [|n IH]; intros h r h'; cbn [Agent.safe_get_from].
  - intros [= <- _] resp. discriminate.
  - rewrite bind_run, attempt_run.
    destruct ((requests_get env url ≫= λ r0, raise_for_status r0;; mret r0) h)
      as [[r0|] h0] eqn:E; cbn [fst snd].
    + intros [= <- _] resp [= <-].
      rewrite bind_run in E.
      destruct (requests_get env url h) as [[r1|] h1]; [|discriminate].
      rewrite bind_run in E. unfold raise_for_status in E.
      destruct (ok r1) eqn:Hok; [|discriminate].
      by injection E as <- _.
    + apply IH.
Qed.

(** A request to a URL that is given always leaves a trace. *)
Lemma safe_get_from_longer (env : Env) (n : nat) (u : string) (h : History) :
  length h < length (snd (Agent.safe_get_from env (S n) (Some u) h)).
Proof.
  assert (Hmono : ∀ k h0, length h0 ≤ length (snd (Agent.safe_get_from env k (Some u) h0))).
  { induction k as [|k IH]; intros h0; cbn [Agent.safe_get_from]; [done|].
    io_unfold. cbn -[app Agent.safe_get_from].
    destruct (http_get env h0 u) as [r|]; cbn -[app Agent.safe_get_from].
    - unfold raise_for_status. destruct (ok r); cbn -[app Agent.safe_get_from].
      + rewrite length_app. lia.
      + etrans; [|apply IH]. rewrite length_app. lia.
    - etrans; [|apply IH]. rewrite length_app. lia. }
  cbn [Agent.safe_get_from]. io_unfold. cbn -[app Agent.safe_get_from].
  destruct (http_get env h u) as [r|]; cbn -[app Agent.safe_get_from].
  - unfold raise_for_status. destruct (ok r); cbn -[app Agent.safe_get_from].
    + rewrite length_app. cbn. lia.
    + eapply Nat.lt_le_trans; [|apply Hmono]. rewrite length_app. cbn. lia.
  - eapply Nat.lt_le_trans; [|apply Hmono]. rewrite length_app. cbn. lia.
Qed.

Lemma probe_paths_mono (env : Env) ks base paths (h : History) :
  length h ≤ length (snd (Agent.probe_paths env ks base paths h)).
Proof.
  revert h. induction paths as [|p rest IH]; intros h; cbn [Agent.probe_paths];
    [done|].
  rewrite bind_run.
  pose proof (safe_get_from_longer env 2 (urljoin base p) h) as Hl.
  pose proof (noraise_safe_get env (Some (urljoin base p)) h) as [r Hr].
  unfold Agent.safe_get, Agent.MAX_RETRIES in *.
  destruct (Agent.safe_get_from env 3 (Some (urljoin base p)) h) as [[r'|] h1];
    cbn in Hr, Hl; [|done].
  destruct (Agent.body_has ks r'); [cbn; lia|].
  etrans; [|apply IH]. lia.
Qed.

Lemma probe_paths_longer (env : Env) ks base p rest (h : History) :
  length h < length (snd (Agent.probe_paths env ks base (p :: rest) h)).
Proof.
  cbn [Agent.probe_paths]. rewrite bind_run.
  pose proof (safe_get_from_longer env 2 (urljoin base p) h) as Hl.
  pose proof (noraise_safe_get env (Some (urljoin base p)) h) as [r Hr].
  unfold Agent.safe_get, Agent.MAX_RETRIES in *.
  destruct (Agent.safe_get_from env 3 (Some (urljoin base p)) h) as [[r'|] h1];
    cbn in Hr, Hl; [|done].
  destruct (Agent.body_has ks r'); [cbn; lia|].
  eapply Nat.lt_le_trans; [exact Hl|apply probe_paths_mono].
Qed.

Lemma first_job_anchor_none (url : string) (l : list Anchor) :
  no_job_anchor Agent.JOB_KEYWORDS l = true → Agent.first_job_anchor url l = None.
Proof.
  induction l as [|a l IH]; [done|].
  cbn [no_job_anchor forallb Agent.first_job_anchor].
  intros [Ha Hl]%andb_true_iff. apply negb_true_iff in Ha. rewrite Ha.
  by apply IH.
Qed.

(** The code of the current variant on a career page that was fetched and
    on which no anchor mentions a job keyword: the career page itself is
    returned, with no further request, exactly when its host contains a
    known ATS host; otherwise the result is the one of the sub-path
    probes, which always make a request. *)
Lemma extract_one_job_ats_iff (env : Env) (h h1 : History) (url : string)
    (resp : Response) :
  nonempty url = true →
  Agent.safe_get env (Some url) h = (Some (Some resp), h1) →
  no_job_anchor Agent.JOB_KEYWORDS
    (anchors (BeautifulSoup env (resp_text resp))) = true →
  (Agent.is_ats_url (Some url) = false →
   Agent.extract_one_job_from_career env (Some url) h =
   Agent.probe_paths env Agent.JOB_KEYWORDS
     (scheme (urlparse url "") +:+ "://" +:+ netloc (urlparse url ""))
     ["/jobs"; "/openings"; "/careers/jobs"] h1) ∧
  (Agent.extract_one_job_from_career env (Some url) h = (Some (Some url), h1)
   ↔ Agent.is_ats_url (Some url) = true).
Proof.
  intros Hne Hget Hno.
  pose proof (safe_get_from_ok env _ _ _ _ _ Hget resp eq_refl) as Hok.
  assert (Hrun : Agent.extract_one_job_from_career env (Some url) h =
                 if Agent.is_ats_url (Some url) then (Some (Some url), h1)
                 else Agent.probe_paths env Agent.JOB_KEYWORDS
                        (scheme (urlparse url "") +:+ "://" +:+ netloc (urlparse url ""))
                        ["/jobs"; "/openings"; "/careers/jobs"] h1).
  { unfold Agent.extract_one_job_from_career. cbn [truthy]. rewrite Hne.
    cbn [negb]. rewrite bind_run, Hget. cbn [Agent.falsy or_empty].
    rewrite Hok. cbn [negb]. rewrite (first_job_anchor_none _ _ Hno).
    by destruct (Agent.is_ats_url (Some url)). }
  rewrite Hrun. split.
  - by intros ->.
  - destruct (Agent.is_ats_url (Some url)); [done|].
    split; [|discriminate]. intros E.
    pose proof (probe_paths_longer env Agent.JOB_KEYWORDS
                  (scheme (urlparse url "") +:+ "://" +:+ netloc (urlparse url ""))
                  "/jobs" ["/openings"; "/careers/jobs"] h1) as Hl.
    rewrite E in Hl. cbn in Hl. lia.
Qed.

(** C7 at the failing input, in the earlier variant.  The career page
    "https://acme.example/careers" is not on an ATS host and has no anchor;
    the earlier [extract_one_job_from_career] returns the career page
    itself all the same, where the current variant probes the sub-paths and
    returns nothing. *)
Theorem prev_extract_returns_career_page_without_ats :
  Agent.is_ats_url (Some "https://acme.example/careers") = false ∧
  fst (Prev.extract_one_job_from_career Worlds.plain_career_page
         (Some "https://acme.example/careers") [])
    = Some (Some "https://acme.example/careers") ∧
  fst (Agent.extract_one_job_from_career Worlds.plain_career_page
         (Some "https://acme.example/careers") [])
    = Some None.
Proof. vm_compute. repeat split. Qed.

(** ** Company name from the page title *)

Lemma append_cons (c : ascii) (s t : string) :
  String c s +:+ t = String c (s +:+ t).
Proof. reflexivity. Qed.

Lemma append_empty (t : string) : "" +:+ t = t.
Proof. reflexivity. Qed.

Lemma prefix_empty (s : string) : prefix "" s = true.
Proof. by destruct s. Qed.

(** A text without the separator is one piece. *)
Lemma split_go_no_sep (sep s : string) :
  contains sep s = false → split_go sep s 0 = [s].
Proof.
  induction s as [|c s IH]; [done|].
  cbn [contains split_go]. intros [Hp Hs]%orb_false_iff.
  rewrite Hp, (IH Hs). reflexivity.
Qed.

(** The piece after the last " at ": the text [R] that follows the
    separator, when [R] has no separator of its own and the text before
    does not end with " at" (which would overlap the separator). *)
Lemma split_at_final (R : string) :
  contains " at " R = false →
  ∀ T k, k ≤ String.length T → endswith T " at" = false →
  ∃ pre, pre ≠ [] ∧ split_go " at " (T +:+ " at " +:+ R) k = pre ++ [R].
Proof.
  intros HR. induction T as [|c T IH]; intros k Hk Hend.
  - cbn in Hk. replace k with 0 by lia.
    exists [""]. split; [done|].
    rewrite append_empty, !append_cons, append_empty. cbn -[contains].
    rewrite ?prefix_empty. by rewrite (split_go_no_sep _ _ HR).
  - cbn [endswith] in Hend. apply orb_false_iff in Hend as [Heq Hend].
    rewrite append_cons. destruct k as [|k].
    + cbn [split_go].
      destruct (prefix " at " (String c (T +:+ " at " +:+ R))) eqn:Hp.
      * assert (Hlen : 3 ≤ String.length T).
        { destruct T as [|c1 [|c2 [|c3 T]]]; cbn [String.length]; try lia;
            rewrite ?append_cons, ?append_empty in Hp;
            cbn [prefix String.eqb] in Hp, Heq;
            repeat match type of Hp with
                   | context [Ascii.eqb ?a ?b] =>
                       destruct (Ascii.eqb a b) eqn:?; try discriminate
                   end;
            repeat match goal with
                   | H : Ascii.eqb _ _ = true |- _ =>
                       apply Ascii.eqb_eq in H; try discriminate; subst
                   end;
            discriminate. }
        change (String.length " at " - 1) with 3.
        destruct (IH 3 Hlen Hend) as (pre & Hpre & ->).
        exists ("" :: pre). by split.
      * destruct (IH 0 ltac:(lia) Hend) as (pre & Hpre & ->).
        destruct pre as [|p pre]; [done|].
        exists (String c p :: pre). by split.
    + cbn [split_go]. cbn in Hk. apply IH; [lia|done].
Qed.

Lemma prefix_app (p s : string) : prefix p (p +:+ s) = true.
Proof.
  induction p as [|c p IH]; [done|].
  rewrite append_cons. cbn [prefix]. by rewrite Ascii.eqb_refl.
Qed.

Lemma contains_app (sep t r : string) : contains sep (t +:+ sep +:+ r) = true.
Proof.
  induction t as [|c t IH].
  - rewrite append_empty. destruct (sep +:+ r) eqn:E; cbn [contains];
      rewrite <- E, prefix_app; reflexivity.
  - rewrite append_cons. cbn [contains]. rewrite IH. apply orb_true_r.
Qed.

(** Case analysis on the character tests of a hypothesis. *)
Ltac eqb_cases H :=
  repeat match type of H with
         | context [Ascii.eqb ?a ?b] =>
             destruct (Ascii.eqb a b) eqn:?; try discriminate
         end;
  repeat match goal with
         | E : Ascii.eqb _ _ = true |- _ =>
             apply Ascii.eqb_eq in E; try discriminate; subst
         end.

(** The separator " at " cannot straddle a bar. *)
Lemma contains_at_bar (c s : string) :
  contains " at " c = false → contains " at " s = false →
  contains " at " (c +:+ "|" +:+ s) = false.
Proof.
  intros Hc Hs. induction c as [|a c IH].
  - rewrite append_empty, append_cons, append_empty. cbn [contains].
    by rewrite Hs.
  - cbn [contains] in Hc. apply orb_false_iff in Hc as [Hp Hc].
    rewrite append_cons. cbn [contains]. rewrite (IH Hc), orb_false_r.
    destruct c as [|c1 [|c2 [|c3 c]]];
      rewrite ?append_cons, ?append_empty; cbn [prefix] in *;
      destruct (Ascii.eqb " " a); try done;
      repeat match goal with
             | |- context [Ascii.eqb ?x ?y] =>
                 destruct (Ascii.eqb x y) eqn:?; try done
             end;
      eqb_cases Hp.
Qed.

(** The first piece of a split at the bar. *)
Lemma split_bar_first (c s : string) :
  contains "|" c = false → first (split "|" (c +:+ "|" +:+ s)) = c.
Proof.
  unfold split. induction c as [|a c IH]; intros Hc.
  - reflexivity.
  - cbn [contains] in Hc. apply orb_false_iff in Hc as [Hp Hc].
    rewrite append_cons. cbn [split_go prefix] in *.
    destruct (Ascii.eqb "|" a); [discriminate|].
    specialize (IH Hc).
    destruct (split_go "|" (c +:+ "|" +:+ s) 0) as [|p ps]; cbn in *;
      by rewrite IH.
Qed.

(** C8, as the code has it.  With no [og:site_name] metadata and a title
    "<title> at <Company>|<source>", the extracted name is the company
    segment with the surrounding white space trimmed, provided that the
    company segment contains neither " at " nor a bar, that the source
    segment contains no " at " (the split keeps what follows the last one),
    and that the title segment does not end with " at" (which would overlap
    the separator).  A page without title, or with a title that has no
    string, gives [None]. *)
Theorem company_name_from_title (soup : Soup) (T C S : string) :
  meta_property soup = None → meta_name soup = None →
  contains " at " C = false → contains "|" C = false →
  contains " at " S = false → endswith T " at" = false →
  (title soup = Some (Some (T +:+ " at " +:+ C +:+ "|" +:+ S)) →
   Agent.company_name_heuristics soup = Some (strip C)) ∧
  (title soup = None ∨ title soup = Some None →
   Agent.company_name_heuristics soup = None).
Proof.
  intros Hmp Hmn HC Hbar HS HT. unfold Agent.company_name_heuristics.
  rewrite Hmp, Hmn. split.
  - intros ->. cbn [truthy negb or_empty]. rewrite contains_app.
    destruct (split_at_final (C +:+ "|" +:+ S) (contains_at_bar _ _ HC HS)
                T 0 ltac:(lia) HT) as (pre & Hpre & E).
    assert (Hfin : final (split " at " (T +:+ " at " +:+ C +:+ "|" +:+ S))
                   = C +:+ "|" +:+ S).
    { unfold split, final. by rewrite E, last_last. }
    by rewrite Hfin, split_bar_first.
  - intros [->| ->]; reflexivity.
Qed.

(** The title "Software Engineer at Acme Corp | LinkedIn". *)
Lemma company_name_from_title_witness :
  Agent.company_name_heuristics
    (Worlds.titled ("Software Engineer" +:+ " at " +:+ "Acme Corp " +:+ "|" +:+ " LinkedIn"))
  = Some "Acme Corp".
Proof.
  apply (company_name_from_title
           (Worlds.titled ("Software Engineer" +:+ " at " +:+ "Acme Corp " +:+ "|" +:+ " LinkedIn"))
           "Software Engineer" "Acme Corp " " LinkedIn");
    reflexivity.
Defined.

(** C8, as stated, fails: the company segment "Acme " contains neither
    " at " nor a bar, but the source segment contains " at ", and the name
    that is extracted is taken after the last " at ". *)
Lemma company_name_after_last_at :
  contains " at " "Acme " = false ∧ contains "|" "Acme " = false ∧
  Agent.company_name_heuristics
    (Worlds.titled ("Dev" +:+ " at " +:+ "Acme " +:+ "|" +:+ " Jobs at LinkedIn"))
  = Some "LinkedIn" ∧
  Agent.company_name_heuristics
    (Worlds.titled ("Dev" +:+ " at " +:+ "Acme " +:+ "|" +:+ " Jobs at LinkedIn"))
  ≠ Some (strip "Acme ").
Proof. vm_compute. repeat split. discriminate. Qed.

(** ** Listing expansion *)

Lemma add_posting_links_subseteq (url : string) (l : list Anchor)
    (s : gset (option string)) :
  s ⊆ Agent.add_posting_links url l s.
Proof.
  unfold Agent.add_posting_links. revert s.
  induction l as [|a l IH]; intros s; cbn [fold_left]; [done|].
  etrans; [|apply IH].
  destruct (contains "/jobs/view/" (href a)); set_solver.
Qed.

Lemma add_posting_links_union (url : string) (l : list Anchor)
    (s : gset (option string)) :
  Agent.add_posting_links url l s = s ∪ Agent.add_posting_links url l ∅.
Proof.
  unfold Agent.add_posting_links. revert s.
  induction l as [|a l IH]; intros s; cbn [fold_left]; [set_solver|].
  rewrite IH. rewrite (IH (if contains "/jobs/view/" (href a) then _ else _)).
  destruct (contains "/jobs/view/" (href a)); set_solver.
Qed.

(** Collecting the links of the same page once more adds nothing. *)
Lemma add_posting_links_twice (url : string) (l : list Anchor)
    (s : gset (option string)) :
  Agent.add_posting_links url l (Agent.add_posting_links url l s)
  = Agent.add_posting_links url l s.
Proof.
  rewrite (add_posting_links_union url l (Agent.add_posting_links url l s)).
  rewrite (add_posting_links_union url l s). set_solver.
Qed.

Lemma set_after_grows (env : Env) (url : string) (k : nat) :
  ∀ h s, set_after env url k h s ⊆ set_after env url (S k) h s.
Proof.
  induction k as [|k IH]; intros h s.
  - cbn. destruct (page_content env _); [|done].
    apply add_posting_links_subseteq.
  - cbn [set_after]. destruct (page_content env _) as [html|]; [|done].
    apply IH.
Qed.

(** The run of the loop from any starting point: it makes [k] iterations,
    [k] at most [n]; no iteration before the last found the size it
    compares with; and when the loop stops before [n], the last iteration
    found it. *)
Lemma scroll_loop_run (env : Env) (url : string) (n : nat) :
  ∀ h s prev s' h',
    Agent.scroll_loop env n url s prev h = (Some s', h') →
    ∃ k, k ≤ n ∧ h' = history_after h k ∧ s' = set_after env url k h s ∧
         (∀ i, 1 ≤ i < k →
               prev_at env url h s prev i ≠ Some (size (set_after env url i h s))) ∧
         (k < n → 1 ≤ k ∧
                  prev_at env url h s prev k = Some (size (set_after env url k h s))).
Proof.
  induction n as [|n IH]; intros h s prev s' h'; cbn [Agent.scroll_loop].
  { intros [= <- <-]. exists 0. repeat split; try lia; intros; lia. }
  unfold evaluate, content, BeautifulSoup. io_unfold.
  change "window.scrollBy(0, window.innerHeight * 2)" with scroll_script.
  destruct (page_evaluate env h scroll_script) as [v|]; [|discriminate].
  destruct (page_content env (h ++ [EvEvaluate scroll_script])) as [html|] eqn:Hc;
    [|discriminate].
  rewrite <- app_assoc. change ([EvEvaluate scroll_script] ++ [EvContent])
    with scroll_events.
  set (s1 := Agent.add_posting_links url (anchors (html_parser env html)) s).
  assert (Hstep : ∀ j, set_after env url (S j) h s
                       = set_after env url j (h ++ scroll_events) s1).
  { intros j. cbn [set_after]. by rewrite Hc. }
  destruct (match prev with Some p => Nat.eqb (size s1) p | None => false end)
    eqn:Hstop.
  - intros [= <- <-]. exists 1. rewrite Hstep. cbn [set_after history_after].
    split; [lia|]. split; [done|]. split; [done|]. split.
    + intros i Hi. lia.
    + intros _. split; [lia|]. unfold prev_at. cbn [Nat.eqb].
      destruct prev as [p|]; [|discriminate].
      apply Nat.eqb_eq in Hstop. by f_equal.
  - intros Hrun.
    destruct (IH _ _ _ _ _ Hrun) as (k & Hk & Hh & Hs & Hbefore & Hlast).
    exists (S k). rewrite Hstep. cbn [history_after].
    split; [lia|]. split; [done|]. split; [done|].
    assert (Hprev : ∀ i, 1 ≤ i →
              prev_at env url h s prev (S i)
              = prev_at env url (h ++ scroll_events) s1 (Some (size s1)) i).
    { intros i Hi. unfold prev_at.
      destruct i as [|[|i]]; [lia| |].
      - cbn [Nat.eqb Nat.sub]. rewrite Hstep. reflexivity.
      - cbn [Nat.eqb]. replace (S (S (S i)) - 1) with (S (S i)) by lia.
        replace (S (S i) - 1) with (S i) by lia. by rewrite Hstep. }
    split.
    + intros i Hi. destruct i as [|[|i]]; [lia| |].
      * unfold prev_at. cbn [Nat.eqb]. rewrite Hstep. cbn [set_after].
        destruct prev as [p|]; [|done].
        apply Nat.eqb_neq in Hstop. congruence.
      * rewrite Hprev by lia. rewrite Hstep. apply Hbefore. lia.
    + intros Hlt. split; [lia|].
      destruct Hlast as [Hk1 Hlast]; [lia|].
      rewrite Hprev by lia. by rewrite ?Hstep.
Qed.

Lemma scrolls_app (h l : History) : scrolls (h ++ l) = scrolls h + scrolls l.
Proof.
  induction h as [|e h IH]; [reflexivity|].
  destruct e; cbn; rewrite ?IH; reflexivity.
Qed.

(** The loop never makes more than [n] scroll actions, whether it returns
    or raises. *)
Lemma scroll_loop_bounded (env : Env) (url : string) (n : nat) :
  ∀ h s prev,
    scrolls (snd (Agent.scroll_loop env n url s prev h)) ≤ scrolls h + n.
Proof.
  induction n as [|n IH]; intros h s prev; cbn [Agent.scroll_loop].
  { cbn. lia. }
  unfold evaluate, content, BeautifulSoup. io_unfold.
  destruct (page_evaluate env h _) as [v|]; cbn [snd].
  - destruct (page_content env _) as [html|]; cbn [snd].
    + destruct (match prev with Some p => _ | None => false end); cbn [snd].
      * rewrite !scrolls_app. cbn. lia.
      * etrans; [apply IH|]. rewrite !scrolls_app. cbn. lia.
    + rewrite !scrolls_app. cbn. lia.
  - rewrite !scrolls_app. cbn. lia.
Qed.

(** The same for the whole expansion, with its browser calls around the
    loop. *)
Lemma scrape_bounded (env : Env) (url : string) (n : nat) (h : History) :
  scrolls (snd (Agent.scrape_jobs_from_search_page env url n h)) ≤ scrolls h + n.
Proof.
  unfold Agent.scrape_jobs_from_search_page.
  destruct (PLAYWRIGHT_AVAILABLE env); cbn [negb]; [|cbn; lia].
  unfold launch, goto, close. io_unfold.
  destruct (bool_answer (browser_launch env h)); cbn [snd];
    [|rewrite scrolls_app; cbn; lia].
  destruct (bool_answer (page_goto env (h ++ [EvLaunch]) url)); cbn [snd];
    [|rewrite !scrolls_app; cbn; lia].
  pose proof (scroll_loop_bounded env url n ((h ++ [EvLaunch]) ++ [EvGoto url])
                ∅ None) as Hb.
  rewrite !scrolls_app in Hb. cbn in Hb.
  destruct (Agent.scroll_loop env n url ∅ None ((h ++ [EvLaunch]) ++ [EvGoto url]))
    as [[s|] h1]; cbn [snd] in *; [|lia].
  destruct (bool_answer (browser_close env h1)); cbn [snd];
    rewrite scrolls_app; cbn; lia.
Qed.

(** C4, as the code has it.  The expansion and its loop are total
    functions that make at most [n] scroll actions ([n] is 20 when
    [run_main] calls [scrape_jobs_from_search_page]), whether they return
    or raise.  When it returns after [k] iterations,
    the set is the one collected from the [k] pages served; the set only
    grew; every iteration from the second to the one before the last
    changed the size of the set; and when the loop stopped before [n],
    it made at least two iterations and the last one added nothing.  The
    first iteration has no earlier size to compare with and never stops the
    loop.  Collecting the links of an unchanged page once more does not
    change the set. *)
Theorem listing_expansion_stops (env : Env) (url : string) (n : nat)
    (h : History) :
  scrolls (snd (Agent.scrape_jobs_from_search_page env url n h)) ≤ scrolls h + n ∧
  scrolls (snd (Agent.scroll_loop env n url ∅ None h)) ≤ scrolls h + n ∧
  (∀ l s, s ⊆ Agent.add_posting_links url l s ∧
          Agent.add_posting_links url l (Agent.add_posting_links url l s)
          = Agent.add_posting_links url l s) ∧
  ∀ s' h', Agent.scroll_loop env n url ∅ None h = (Some s', h') →
    ∃ k, k ≤ n ∧ h' = history_after h k ∧ s' = set_after env url k h ∅ ∧
         (∀ i, i < k →
               set_after env url i h ∅ ⊆ set_after env url (S i) h ∅) ∧
         (∀ i, 2 ≤ i < k →
               size (set_after env url i h ∅)
               ≠ size (set_after env url (i - 1) h ∅)) ∧
         (k < n → 2 ≤ k ∧
                  set_after env url k h ∅ = set_after env url (k - 1) h ∅).
Proof.
  split; [apply scrape_bounded|].
  split; [apply scroll_loop_bounded|].
  split.
  { intros l s. split;
      [apply add_posting_links_subseteq | apply add_posting_links_twice]. }
  intros s' h' Hrun.
  destruct (scroll_loop_run env url n _ _ _ _ _ Hrun)
    as (k & Hk & Hh & Hs & Hbefore & Hlast).
  exists k. split; [done|]. split; [done|]. split; [done|]. split.
  { intros i _. apply set_after_grows. }
  split.
  - intros i Hi. specialize (Hbefore i ltac:(lia)). unfold prev_at in Hbefore.
    destruct (Nat.eqb_spec i 1); [lia|]. congruence.
  - intros Hlt. destruct (Hlast Hlt) as [Hk1 Hp]. unfold prev_at in Hp.
    destruct (Nat.eqb_spec k 1); [discriminate|].
    split; [lia|]. injection Hp as Hp.
    symmetry. apply set_subseteq_size_eq; [|lia].
    replace k with (S (k - 1)) at 2 by lia. apply set_after_grows.
Qed.

(** The listing whose postings appear after the second scroll: the loop
    returns after three iterations. *)
Lemma listing_expansion_stops_witness :
  ∃ k, k ≤ 20 ∧
       history_after [] 3 = history_after [] k ∧
       {[ Some "https://www.linkedin.com/jobs/view/7" ]}
       = set_after Worlds.late_listing "https://www.linkedin.com/jobs/search" k [] ∅.
Proof.
  destruct (listing_expansion_stops Worlds.late_listing
              "https://www.linkedin.com/jobs/search" 20 []) as (_ & _ & _ & H).
  destruct (H {[ Some "https://www.linkedin.com/jobs/view/7" ]}
              (history_after [] 3)) as (k & Hk & Hh & Hs & _).
  - vm_compute. reflexivity.
  - exists k. auto.
Defined.

(** C4, as stated, fails: on the late listing the first full iteration adds
    no identifier (the set is still empty after it), and the loop does not
    stop there; it goes on, collects the posting of the second page and
    returns after the third iteration. *)
Lemma scroll_loop_passes_empty_first_iteration :
  set_after Worlds.late_listing "https://www.linkedin.com/jobs/search" 1 [] ∅ = ∅ ∧
  ∃ s', Agent.scroll_loop Worlds.late_listing 20
          "https://www.linkedin.com/jobs/search" ∅ None []
        = (Some s', history_after [] 3) ∧
        elements s' = [Some "https://www.linkedin.com/jobs/view/7"].
Proof.
  split; [by vm_compute|].
  eexists. split; vm_compute; reflexivity.
Qed.

(** ** Characters of the strings that the helpers build *)

Section AllChars.
Context (p : ascii → bool).

Lemma all_chars_app (a b : string) :
  all_chars p (a +:+ b) = all_chars p a && all_chars p b.
Proof.
  induction a as [|c a IH]; [done|].
  rewrite append_cons. cbn [all_chars]. by rewrite IH, andb_assoc.
Qed.

Lemma all_chars_lstrip_by (q : ascii → bool) (s : string) :
  all_chars p s = true → all_chars p (lstrip_by q s) = true.
Proof.
  induction s as [|c s IH]; [done|]. cbn [lstrip_by].
  destruct (q c); [|done]. cbn [all_chars]. intros [_ H]%andb_true_iff. auto.
Qed.

Lemma all_chars_rstrip_by (q : ascii → bool) (s : string) :
  all_chars p s = true → all_chars p (rstrip_by q s) = true.
Proof.
  induction s as [|c s IH]; [done|]. cbn [rstrip_by all_chars].
  intros [Hc H]%andb_true_iff.
  destruct (q c && negb (nonempty (rstrip_by q s))); [done|].
  cbn [all_chars]. by rewrite Hc, IH.
Qed.

Lemma all_chars_strip (s : string) :
  all_chars p s = true → all_chars p (strip s) = true.
Proof. intros H. by apply all_chars_rstrip_by, all_chars_lstrip_by. Qed.

Lemma all_chars_filter_chars (q : ascii → bool) (s : string) :
  all_chars p s = true → all_chars p (filter_chars q s) = true.
Proof.
  induction s as [|c s IH]; [done|]. cbn [filter_chars all_chars].
  intros [Hc H]%andb_true_iff.
  destruct (q c); cbn [all_chars]; rewrite ?Hc; auto.
Qed.

Lemma all_chars_drop (n : nat) (s : string) :
  all_chars p s = true → all_chars p (drop n s) = true.
Proof.
  revert s. induction n as [|n IH]; intros [|c s]; cbn [drop all_chars]; try done.
  intros [_ H]%andb_true_iff. auto.
Qed.

Lemma all_chars_cut (c : ascii) (s a b : string) :
  cut c s = Some (a, b) → all_chars p s = true →
  all_chars p a = true ∧ all_chars p b = true.
Proof.
  revert a. induction s as [|d s IH]; intros a; [done|]. cbn [cut all_chars].
  intros E [Hd H]%andb_true_iff.
  destruct (Ascii.eqb d c).
  - by injection E as <- <-.
  - destruct (cut c s) as [[a' b']|]; [|done]. injection E as <- <-.
    destruct (IH a' eq_refl H). cbn [all_chars]. by rewrite Hd.
Qed.

Lemma all_chars_rcut (c : ascii) (s a b : string) :
  rcut c s = Some (a, b) → all_chars p s = true →
  all_chars p a = true ∧ all_chars p b = true.
Proof.
  revert a. induction s as [|d s IH]; intros a; [done|]. cbn [rcut all_chars].
  intros E [Hd H]%andb_true_iff.
  destruct (rcut c s) as [[a' b']|].
  - injection E as <- <-. destruct (IH a' eq_refl H).
    cbn [all_chars]. by rewrite Hd.
  - destruct (Ascii.eqb d c); [|done]. by injection E as <- <-.
Qed.

Lemma all_chars_span (q : ascii → bool) (s : string) :
  all_chars p s = true →
  all_chars p (fst (span q s)) = true ∧ all_chars p (snd (span q s)) = true.
Proof.
  induction s as [|c s IH]; [done|]. cbn [span all_chars].
  intros [Hc H]%andb_true_iff. destruct (q c).
  - destruct (span q s) as [a b]. destruct (IH H). cbn in *. by rewrite Hc.
  - cbn. by rewrite Hc.
Qed.

Lemma all_chars_split_go (sep s : string) (k : nat) :
  all_chars p s = true → Forall (fun x => all_chars p x = true) (split_go sep s k).
Proof.
  revert k. induction s as [|c s IH]; intros k; cbn [split_go all_chars].
  { intros _. by constructor. }
  intros [Hc H]%andb_true_iff. destruct k as [|k]; [|by apply IH].
  destruct (prefix sep (String c s)).
  - constructor; [done|by apply IH].
  - specialize (IH 0 H). destruct (split_go sep s 0) as [|x xs].
    + constructor; [|done]. cbn. by rewrite Hc.
    + inversion_clear IH. constructor; [|done]. cbn. by rewrite Hc.
Qed.

Lemma all_chars_join (sep : string) (l : list string) :
  all_chars p sep = true → Forall (fun x => all_chars p x = true) l →
  all_chars p (join sep l) = true.
Proof.
  intros Hsep. induction 1 as [|x l Hx Hl IH]; [done|].
  destruct l as [|y l]; [done|].
  change (join sep (x :: y :: l)) with (x +:+ sep +:+ join sep (y :: l)).
  by rewrite !all_chars_app, Hx, Hsep, IH.
Qed.

Lemma all_chars_final (l : list string) :
  Forall (fun x => all_chars p x = true) l → all_chars p (final l) = true.
Proof.
  unfold final. induction 1 as [|x l Hx Hl IH]; [done|].
  destruct l; [done|]. exact IH.
Qed.

Lemma Forall_removelast {A} (P : A → Prop) (l : list A) :
  Forall P l → Forall P (removelast l).
Proof.
  induction 1 as [|x l Hx Hl IH]; [constructor|].
  destruct l; [constructor|]. cbn [removelast] in *. by constructor.
Qed.

Lemma Forall_list_filter {A} (P : A → Prop) (f : A → bool) (l : list A) :
  Forall P l → Forall P (List.filter f l).
Proof.
  induction 1 as [|x l Hx Hl IH]; [constructor|].
  cbn [List.filter]. destruct (f x); [by constructor|done].
Qed.

Lemma all_chars_resolve_path (bpath rel : string) :
  all_chars p "/" = true →
  startswith rel "/" = true ∨ all_chars p bpath = true →
  all_chars p rel = true →
  all_chars p (resolve_path bpath rel) = true.
Proof.
  intros Hslash Hb Hr. unfold resolve_path.
  set (P := fun x => all_chars p x = true).
  assert (Hbp : startswith rel "/" = false →
                Forall P (if nonempty (final (split "/" bpath))
                          then removelast (split "/" bpath)
                          else split "/" bpath)).
  { intros Hrel. destruct Hb as [Hb|Hb]; [congruence|].
    destruct (nonempty _); [apply Forall_removelast|];
      by apply all_chars_split_go. }
  assert (Hseg : Forall P (if startswith rel "/" then split "/" rel
                           else filter_middle
                                  ((if nonempty (final (split "/" bpath))
                                    then removelast (split "/" bpath)
                                    else split "/" bpath) ++ split "/" rel))).
  { destruct (startswith rel "/"); [by apply all_chars_split_go|].
    assert (Hall : Forall P ((if nonempty (final (split "/" bpath))
                              then removelast (split "/" bpath)
                              else split "/" bpath) ++ split "/" rel)).
    { apply Forall_app. split; [by apply Hbp|by apply all_chars_split_go]. }
    revert Hall. generalize ((if nonempty (final (split "/" bpath))
                              then removelast (split "/" bpath)
                              else split "/" bpath) ++ split "/" rel).
    intros l Hl. unfold filter_middle. destruct Hl as [|x l Hx Hl]; [constructor|].
    destruct l as [|y l]; [by repeat constructor|].
    constructor; [done|]. apply Forall_app. split.
    - apply Forall_list_filter, Forall_removelast, Hl.
    - constructor; [|constructor]. by apply all_chars_final. }
  revert Hseg. generalize (if startswith rel "/" then split "/" rel
                           else filter_middle
                                  ((if nonempty (final (split "/" bpath))
                                    then removelast (split "/" bpath)
                                    else split "/" bpath) ++ split "/" rel)).
  intros segs Hsegs.
  assert (Hres : Forall P (rev (fold_left resolve_step segs []))).
  { apply Forall_rev.
    assert (Hfold : ∀ st, Forall P st → Forall P (fold_left resolve_step segs st)).
    { induction Hsegs as [|x l Hx Hl IH]; intros st Hst; [done|].
      cbn [fold_left]. apply IH. unfold resolve_step.
      destruct (String.eqb x ".."); [by destruct Hst|].
      destruct (String.eqb x "."); [done|]. by constructor. }
    apply Hfold. constructor. }
  assert (Hres' : Forall P (if mem (final segs) ["."; ".."]
                            then rev (fold_left resolve_step segs []) ++ [""]
                            else rev (fold_left resolve_step segs []))).
  { destruct (mem _ _); [|done]. apply Forall_app. split; [done|].
    by repeat constructor. }
  destruct (nonempty (join "/" _)); [|done].
  by apply all_chars_join.
Qed.

End AllChars.

Lemma all_chars_impl (p q : ascii → bool) (s : string) :
  (∀ c, q c = true → p c = true) →
  all_chars q s = true → all_chars p s = true.
Proof.
  intros Hpq. induction s as [|c s IH]; [done|]. cbn [all_chars].
  intros [Hc H]%andb_true_iff. by rewrite (Hpq c Hc), IH.
Qed.

Lemma all_chars_lower (p q : ascii → bool) (s : string) :
  (∀ c, q c = true → p (lower_char c) = true) →
  all_chars q s = true → all_chars p (lower s) = true.
Proof.
  intros Hpq. induction s as [|c s IH]; [done|]. cbn [all_chars lower].
  intros [Hc H]%andb_true_iff. by rewrite (Hpq c Hc), IH.
Qed.

Lemma span_fst_all (q : ascii → bool) (s : string) :
  all_chars q (fst (span q s)) = true.
Proof.
  induction s as [|c s IH]; [done|]. cbn [span].
  destruct (q c) eqn:Hc; [|done].
  destruct (span q s) as [a b]. cbn in *. by rewrite Hc.
Qed.

Lemma cut_fst_free (c : ascii) (s a b : string) :
  cut c s = Some (a, b) → free c a = true.
Proof.
  unfold free. revert a. induction s as [|d s IH]; intros a; [done|].
  cbn [cut]. destruct (Ascii.eqb d c) eqn:Hd.
  - by intros [= <- <-].
  - destruct (cut c s) as [[a' b']|]; [|done]. intros [= <- <-].
    cbn [all_chars]. by rewrite Hd, (IH a' eq_refl).
Qed.

Lemma cut_none_free (c : ascii) (s : string) :
  cut c s = None ↔ free c s = true.
Proof.
  unfold free. induction s as [|d s IH]; [done|]. cbn [cut all_chars].
  destruct (Ascii.eqb d c); cbn [negb andb]; [done|].
  destruct (cut c s) as [[a b]|]; [|tauto].
  split; [done|]. intros H. apply IH in H. discriminate.
Qed.

Lemma cut_or_fst_free (c : ascii) (s : string) :
  free c (fst (cut_or c s)) = true.
Proof.
  unfold cut_or. destruct (cut c s) as [[a b]|] eqn:E; cbn [fst].
  - by eapply cut_fst_free.
  - by apply cut_none_free.
Qed.

Lemma cut_or_free (c : ascii) (s : string) :
  free c s = true → cut_or c s = (s, "").
Proof. intros H. unfold cut_or. by apply cut_none_free in H as ->. Qed.

Lemma all_chars_cut_or (p : ascii → bool) (c : ascii) (s : string) :
  all_chars p s = true →
  all_chars p (fst (cut_or c s)) = true ∧ all_chars p (snd (cut_or c s)) = true.
Proof.
  intros H. unfold cut_or. destruct (cut c s) as [[a b]|] eqn:E; cbn [fst snd].
  - by eapply all_chars_cut.
  - done.
Qed.

(** ["c" in s] and [free]. *)
Lemma contains_char_free (c : ascii) (s : string) :
  contains (String c "") s = negb (free c s).
Proof.
  unfold free. induction s as [|d s IH]; [done|].
  cbn [contains prefix all_chars]. rewrite IH, Ascii.eqb_sym.
  destruct (Ascii.eqb d c); [by destruct s|done].
Qed.

Lemma contains_false_free (c : ascii) (s : string) :
  contains (String c "") s = false ↔ free c s = true.
Proof. rewrite contains_char_free. by destruct (free c s). Qed.

(** A string with an occurrence of [sub] is not empty when [sub] is not. *)
Lemma contains_nonempty (sub s : string) :
  nonempty sub = true → contains sub s = true → nonempty s = true.
Proof. destruct s; [|done]. by destruct sub. Qed.

Lemma lower_char_question (c : ascii) :
  Ascii.eqb (lower_char c) "?" = Ascii.eqb c "?".
Proof. by destruct c as [[] [] [] [] [] [] [] []]. Qed.

Lemma scheme_char_question (c : ascii) :
  scheme_char c = true → negb (Ascii.eqb (lower_char c) "?") = true.
Proof. by destruct c as [[] [] [] [] [] [] [] []]. Qed.

Lemma free_lower (s : string) : free "?" s = true → free "?" (lower s) = true.
Proof.
  apply all_chars_lower. intros c Hc. by rewrite lower_char_question.
Qed.

(** *** The query mark in parsed and joined URLs *)

Lemma split_scheme_noq (url d : string) :
  free "?" d = true →
  free "?" (fst (split_scheme url d)) = true ∧
  (free "?" url = true → free "?" (snd (split_scheme url d)) = true).
Proof.
  intros Hd. unfold split_scheme.
  destruct (cut ":" url) as [[pre rest]|] eqn:E; [|done].
  destruct (nonempty pre && first_is_alpha url && all_chars scheme_char pre)
    eqn:Hc; [|done].
  apply andb_true_iff in Hc as [_ Hsch]. cbn [fst snd]. split.
  - eapply all_chars_lower; [|exact Hsch]. apply scheme_char_question.
  - intros Hu. by destruct (all_chars_cut _ _ _ _ _ E Hu).
Qed.

Lemma netloc_noq (url : string) :
  free "?" (fst (if startswith url "//" then splitnetloc url else ("", url))) = true ∧
  (free "?" url = true →
   free "?" (snd (if startswith url "//" then splitnetloc url else ("", url))) = true).
Proof.
  destruct (startswith url "//"); [|done]. unfold splitnetloc. split.
  - eapply all_chars_impl; [|apply span_fst_all].
    intros c. unfold netloc_delim. by destruct (Ascii.eqb c "?"), (Ascii.eqb c "/").
  - intros Hu. by apply all_chars_span, all_chars_drop.
Qed.

Lemma clean_noq (url : string) :
  free "?" url = true → free "?" (remove_unsafe (lstrip_by c0_or_space url)) = true.
Proof. intros H. by apply all_chars_filter_chars, all_chars_lstrip_by. Qed.

Lemma clean_default_noq (d : string) :
  free "?" d = true →
  free "?" (remove_unsafe (rstrip_by c0_or_space (lstrip_by c0_or_space d))) = true.
Proof.
  intros H. by apply all_chars_filter_chars, all_chars_rstrip_by,
    all_chars_lstrip_by.
Qed.

(** The five parts of [urlsplit], step by step. *)
Lemma urlsplit_eq (url d : string) :
  urlsplit url d =
  let ss := split_scheme (remove_unsafe (lstrip_by c0_or_space url))
              (remove_unsafe (rstrip_by c0_or_space (lstrip_by c0_or_space d))) in
  let nl := if startswith (snd ss) "//" then splitnetloc (snd ss)
            else ("", snd ss) in
  let fr := cut_or "#" (snd nl) in
  let qr := cut_or "?" (fst fr) in
  (fst ss, fst nl, fst qr, snd qr, snd fr).
Proof.
  unfold urlsplit. cbv zeta.
  destruct (split_scheme _ _) as [sch u1]. cbn [fst snd].
  destruct (if startswith u1 "//" then splitnetloc u1 else ("", u1)) as [net u2].
  cbn [fst snd]. destruct (cut_or "#" u2) as [u3 frag]. cbn [fst snd].
  by destruct (cut_or "?" u3).
Qed.

Lemma urlparse_eq (url d : string) :
  urlparse url d =
  let sp := urlsplit url d in
  let pth := sp.1.1.2 in
  let pp := if mem sp.1.1.1.1 uses_params && contains ";" pth
            then splitparams pth else (pth, "") in
  mkParse sp.1.1.1.1 sp.1.1.1.2 pp.1 pp.2 sp.1.2 sp.2.
Proof.
  unfold urlparse. destruct (urlsplit url d) as [[[[sch net] pth] qry] frag].
  cbn [fst snd].
  destruct (mem sch uses_params && contains ";" pth);
    [destruct (splitparams pth)|]; reflexivity.
Qed.

Lemma urlsplit_noq_any (url d : string) :
  free "?" d = true →
  free "?" (urlsplit url d).1.1.1.1 = true ∧
  free "?" (urlsplit url d).1.1.1.2 = true ∧
  free "?" (urlsplit url d).1.1.2 = true.
Proof.
  intros Hd. rewrite urlsplit_eq. cbv zeta. cbn [fst snd].
  split; [by apply split_scheme_noq, clean_default_noq|].
  split; [apply netloc_noq|]. apply cut_or_fst_free.
Qed.

Lemma urlsplit_noq (url d : string) :
  free "?" url = true → free "?" d = true →
  free "?" (urlsplit url d).1.1.1.1 = true ∧
  free "?" (urlsplit url d).1.1.1.2 = true ∧
  free "?" (urlsplit url d).1.1.2 = true ∧
  (urlsplit url d).1.2 = "" ∧
  free "?" (urlsplit url d).2 = true.
Proof.
  intros Hu Hd. rewrite urlsplit_eq. cbv zeta. cbn [fst snd].
  set (ss := split_scheme _ _).
  assert (Hss : free "?" ss.1 = true ∧ free "?" ss.2 = true).
  { split; apply split_scheme_noq; auto using clean_default_noq, clean_noq. }
  destruct Hss as [Hs1 Hs2].
  set (nl := if startswith ss.2 "//" then splitnetloc ss.2 else ("", ss.2)).
  assert (Hnl : free "?" nl.1 = true ∧ free "?" nl.2 = true).
  { split; by apply netloc_noq. }
  destruct Hnl as [Hn1 Hn2].
  destruct (all_chars_cut_or _ "#" _ Hn2) as [Hf1 Hf2].
  rewrite (cut_or_free "?" _ Hf1). cbn [fst snd]. done.
Qed.

Lemma splitparams_noq (pth : string) :
  free "?" pth = true →
  free "?" (splitparams pth).1 = true ∧ free "?" (splitparams pth).2 = true.
Proof.
  intros H. unfold splitparams.
  destruct (rcut "/" pth) as [[dir seg]|] eqn:E.
  - destruct (all_chars_rcut _ _ _ _ _ E H) as [Hdir Hseg].
    destruct (cut ";" seg) as [[a b]|] eqn:E2; cbn [fst snd]; [|done].
    destruct (all_chars_cut _ _ _ _ _ E2 Hseg) as [Ha Hb].
    unfold free in *. by rewrite !all_chars_app, Hdir, Ha.
  - by apply all_chars_cut_or.
Qed.

Lemma urlparse_noq_any (url d : string) :
  free "?" d = true →
  free "?" (scheme (urlparse url d)) = true ∧
  free "?" (netloc (urlparse url d)) = true ∧
  free "?" (path (urlparse url d)) = true ∧
  free "?" (params (urlparse url d)) = true.
Proof.
  intros Hd. rewrite urlparse_eq. cbv zeta. cbn [scheme netloc path params].
  destruct (urlsplit_noq_any url d Hd) as (Hs & Hn & Hp).
  split; [done|]. split; [done|].
  destruct (mem _ _ && contains ";" _); [by apply splitparams_noq|done].
Qed.

Lemma urlparse_noq (url d : string) :
  free "?" url = true → free "?" d = true →
  free "?" (scheme (urlparse url d)) = true ∧
  free "?" (netloc (urlparse url d)) = true ∧
  free "?" (path (urlparse url d)) = true ∧
  free "?" (params (urlparse url d)) = true ∧
  query (urlparse url d) = "" ∧
  free "?" (fragment (urlparse url d)) = true.
Proof.
  intros Hu Hd. rewrite urlparse_eq. cbv zeta.
  cbn [scheme netloc path params query fragment].
  destruct (urlsplit_noq url d Hu Hd) as (Hs & Hn & Hp & Hq & Hf).
  split; [done|]. split; [done|].
  destruct (mem _ _ && contains ";" _).
  - destruct (splitparams_noq _ Hp). done.
  - done.
Qed.

Lemma urlunparse_noq (pr : ParseResult) :
  free "?" (scheme pr) = true → free "?" (netloc pr) = true →
  free "?" (path pr) = true → free "?" (params pr) = true →
  query pr = "" → free "?" (fragment pr) = true →
  free "?" (urlunparse pr) = true.
Proof.
  intros Hs Hn Hp Ha Hq Hf. unfold urlunparse, urlunsplit. rewrite Hq.
  cbn [nonempty].
  set (u0 := if nonempty (params pr) then path pr +:+ ";" +:+ params pr else path pr).
  assert (H0 : free "?" u0 = true).
  { unfold u0, free in *. destruct (nonempty (params pr)); [|done].
    by rewrite !all_chars_app, Hp, Ha. }
  set (u1 := if nonempty u0 && negb (startswith u0 "/") then "/" +:+ u0 else u0).
  assert (H1 : free "?" u1 = true).
  { unfold u1, free in *. destruct (_ && _); [|done].
    by rewrite all_chars_app, H0. }
  set (u2 := if nonempty (netloc pr) ||
                  nonempty (scheme pr) && mem (scheme pr) uses_netloc &&
                  negb (startswith u0 "//")
              then "//" +:+ netloc pr +:+ u1 else u0).
  assert (H2 : free "?" u2 = true).
  { unfold u2, free in *. destruct (_ || _); [|done].
    by rewrite !all_chars_app, Hn, H1. }
  set (u3 := if nonempty (scheme pr) then scheme pr +:+ ":" +:+ u2 else u2).
  assert (H3 : free "?" u3 = true).
  { unfold u3, free in *. destruct (nonempty (scheme pr)); [|done].
    by rewrite !all_chars_app, Hs, H2. }
  unfold free in *. destruct (nonempty (fragment pr)); [|done].
  by rewrite !all_chars_app, H3, Hf.
Qed.

Lemma urlparse_empty_path (d : string) : path (urlparse "" d) = "".
Proof.
  rewrite urlparse_eq, urlsplit_eq. cbn -[mem]. by rewrite andb_false_r.
Qed.

(** A joined URL has no question mark when the reference has none, unless
    the reference has an empty path and the base brings its own query. *)
Lemma urljoin_noq (base h : string) :
  free "?" h = true →
  free "?" base = true ∨
  nonempty (path (urlparse h (scheme (urlparse base "")))) = true →
  free "?" (urljoin base h) = true.
Proof.
  intros Hh Hor. unfold urljoin.
  destruct (nonempty base) eqn:Hbase; cbn [negb]; [|done].
  destruct (nonempty h) eqn:Hne; cbn [negb].
  2: { destruct Hor as [Hb|Hp]; [done|].
       destruct h; [|done]. by rewrite urlparse_empty_path in Hp. }
  destruct (urlparse_noq_any base "" eq_refl) as (Hbs & Hbn & Hbp & Hba).
  destruct (urlparse_noq h (scheme (urlparse base "")) Hh Hbs)
    as (Hus & Hun & Hup & Hua & Huq & Huf).
  set (b := urlparse base "") in *.
  set (u := urlparse h (scheme b)) in *.
  destruct (negb (String.eqb (scheme u) (scheme b)) ||
            negb (mem (scheme u) uses_relative)); [done|].
  destruct (mem (scheme u) uses_netloc && nonempty (netloc u)).
  { by apply urlunparse_noq. }
  assert (Hnet : free "?" (if mem (scheme u) uses_netloc then netloc b
                           else netloc u) = true).
  { by destruct (mem (scheme u) uses_netloc). }
  destruct (negb (nonempty (path u)) && negb (nonempty (params u))) eqn:Hinh.
  - destruct Hor as [Hb|Hp].
    + destruct (urlparse_noq base "" Hb eq_refl) as (_ & _ & _ & _ & Hbq & _).
      apply urlunparse_noq; cbn [scheme netloc path params query fragment];
        try done.
      fold b in Hbq. by rewrite Huq, Hbq.
    + rewrite Hp in Hinh. discriminate.
  - apply urlunparse_noq; cbn [scheme netloc path params query fragment];
      try done.
    apply all_chars_resolve_path; auto.
Qed.

(** The same for [normalize_url]. *)
Lemma normalize_url_noq (base p u : string) :
  free "?" p = true →
  free "?" base = true ∨
  nonempty (path (urlparse (strip p) (scheme (urlparse base "")))) = true →
  Agent.normalize_url base (Some p) = Some u →
  free "?" u = true.
Proof.
  intros Hp Hor. unfold Agent.normalize_url. cbn [truthy or_empty].
  destruct (nonempty p); cbn [negb]; [|done].
  pose proof (all_chars_strip _ _ Hp) as Hs. fold (free "?" (strip p)) in Hs.
  destruct (startswith (strip p) "#" || _ || _); [done|].
  destruct (startswith (strip p) "//").
  - intros [= <-].
    destruct (urlparse_noq_any base "" eq_refl) as (Hbs & _).
    unfold free in *. rewrite !all_chars_app, Hs.
    by destruct (nonempty (scheme (urlparse base ""))); [rewrite Hbs|].
  - intros [= <-]. by apply urljoin_noq.
Qed.

(** The href of a link, cut at its first question mark. *)
Lemma split_question_first_noq (s : string) :
  free "?" (first (split "?" s)) = true.
Proof.
  unfold split, free. induction s as [|c s IH]; [done|].
  cbn [split_go prefix]. destruct (Ascii.eqb "?" c) eqn:Hc.
  - by destruct s.
  - destruct (split_go "?" s 0) as [|x xs]; cbn [first hd all_chars] in *;
      rewrite Ascii.eqb_sym, Hc; [done|]. by rewrite IH.
Qed.

Lemma split_question_first (p q : string) :
  free "?" p = true → first (split "?" (p +:+ "?" +:+ q)) = p.
Proof.
  unfold split, free. induction p as [|c p IH]; [done|].
  cbn [all_chars]. intros [Hc Hp]%andb_true_iff.
  rewrite append_cons. cbn [split_go prefix].
  rewrite Ascii.eqb_sym. apply negb_true_iff in Hc. rewrite Hc.
  specialize (IH Hp).
  destruct (split_go "?" (p +:+ "?" +:+ q) 0); cbn in *; by rewrite IH.
Qed.

(** ** Posting identifiers *)

Lemma elem_of_add_posting_links (base : string) (l : list Anchor)
    (s : gset (option string)) (x : option string) :
  x ∈ Agent.add_posting_links base l s ↔
  x ∈ s ∨ ∃ a, a ∈ l ∧ contains "/jobs/view/" (href a) = true ∧
               x = Agent.normalize_url base (Some (first (split "?" (href a)))).
Proof.
  unfold Agent.add_posting_links. revert s.
  induction l as [|a l IH]; intros s; cbn [fold_left].
  { split; [by left|]. intros [?|(a & Ha & _)]; [done|]. by inversion Ha. }
  rewrite IH. destruct (contains "/jobs/view/" (href a)) eqn:Hc.
  - rewrite elem_of_union, elem_of_singleton. split.
    + intros [[->|?]|(a' & Ha' & ?)]; [right|by left|right].
      * exists a. split; [left|done].
      * exists a'. split; [by right|done].
    + intros [?|(a' & Ha' & Hc' & ->)]; [by left; right|].
      apply elem_of_cons in Ha' as [->|Ha']; [by left; left|].
      right. by exists a'.
  - split.
    + intros [?|(a' & Ha' & ?)]; [by left|right].
      exists a'. split; [by right|done].
    + intros [?|(a' & Ha' & Hc' & ->)]; [by left|].
      apply elem_of_cons in Ha' as [->|Ha']; [congruence|].
      right. by exists a'.
Qed.

Lemma size_add_one (x : option string) (s : gset (option string)) :
  size ({[ x ]} ∪ s) ≤ S (size s).
Proof.
  destruct (decide (x ∈ s)) as [Hx|Hx].
  - replace ({[ x ]} ∪ s) with s by set_solver. lia.
  - rewrite size_union by set_solver. rewrite size_singleton. lia.
Qed.

(** C6, as the code has it.  In [scrape_jobs_from_search_page] the href of
    a posting link is cut at its first question mark before it is
    normalised and added to the set.  So two posting links that differ only
    in their query strings contribute one identifier, the one of their
    common part.  That identifier contains no question mark when the
    listing URL has none, or when the path of the link carries
    "/jobs/view/"; and when the listing URL has no question mark, no
    identifier collected from any page contains one. *)
Theorem posting_identifier_query_stripped (base p q1 q2 t1 t2 : string)
    (s : gset (option string)) :
  contains "?" p = false →
  contains "/jobs/view/" (p +:+ "?" +:+ q1) = true →
  contains "/jobs/view/" (p +:+ "?" +:+ q2) = true →
  Agent.add_posting_links base
    [mkAnchor (p +:+ "?" +:+ q1) t1; mkAnchor (p +:+ "?" +:+ q2) t2] s
  = {[ Agent.normalize_url base (Some p) ]} ∪ s ∧
  size (Agent.add_posting_links base
          [mkAnchor (p +:+ "?" +:+ q1) t1; mkAnchor (p +:+ "?" +:+ q2) t2] s)
  ≤ S (size s) ∧
  (contains "?" base = false ∨
   contains "/jobs/view/"
     (path (urlparse (strip p) (scheme (urlparse base "")))) = true →
   ∀ u, Agent.normalize_url base (Some p) = Some u → contains "?" u = false) ∧
  (contains "?" base = false →
   ∀ l u, Some u ∈ Agent.add_posting_links base l ∅ → contains "?" u = false).
Proof.
  intros Hp H1 H2. apply contains_false_free in Hp.
  assert (E : Agent.add_posting_links base
                [mkAnchor (p +:+ "?" +:+ q1) t1; mkAnchor (p +:+ "?" +:+ q2) t2] s
              = {[ Agent.normalize_url base (Some p) ]} ∪ s).
  { unfold Agent.add_posting_links. cbn [fold_left href].
    rewrite H1, H2, !split_question_first by done. set_solver. }
  split; [exact E|]. split; [rewrite E; apply size_add_one|]. split.
  - intros Hor u Hu. apply contains_false_free.
    eapply normalize_url_noq; [exact Hp| |exact Hu].
    destruct Hor as [Hb|Hpath]; [left; by apply contains_false_free|right].
    by eapply contains_nonempty, Hpath.
  - intros Hb l u Hu. apply contains_false_free.
    apply elem_of_add_posting_links in Hu as [Hu|(a & _ & _ & Hu)];
      [set_solver|].
    eapply normalize_url_noq; [apply split_question_first_noq| |by symmetry].
    left. by apply contains_false_free.
Qed.

(** Two links to the posting 42 that differ in their tracking parameter. *)
Lemma posting_identifier_query_stripped_witness :
  Agent.add_posting_links "https://www.linkedin.com/jobs/search?keywords=rocq"
    [mkAnchor ("/jobs/view/42" +:+ "?" +:+ "refId=a") "Engineer";
     mkAnchor ("/jobs/view/42" +:+ "?" +:+ "refId=b") "Engineer"] ∅
  = {[ Agent.normalize_url "https://www.linkedin.com/jobs/search?keywords=rocq"
         (Some "/jobs/view/42") ]} ∪ ∅.
Proof.
  apply (posting_identifier_query_stripped
           "https://www.linkedin.com/jobs/search?keywords=rocq"
           "/jobs/view/42" "refId=a" "refId=b" "Engineer" "Engineer" ∅);
    reflexivity.
Defined.

(** C6, as stated, fails.  In the current variant a posting link with an
    empty path takes over the query string of the listing URL: its
    identifier contains a question mark.  In the earlier variant the href
    is not cut: two links that differ only in their query strings give two
    identifiers, each with its query string. *)
Lemma posting_identifier_with_query :
  contains "/jobs/view/" "https:#/jobs/view/1" = true ∧
  elements (Agent.add_posting_links
              "https://www.linkedin.com/jobs/search?keywords=rocq"
              [mkAnchor "https:#/jobs/view/1" "Engineer"] ∅)
  = [Some "https://www.linkedin.com/jobs/search?keywords=rocq#/jobs/view/1"] ∧
  size (Prev.add_posting_links "https://www.linkedin.com/jobs/search"
          [mkAnchor "/jobs/view/42?refId=a" "Engineer";
           mkAnchor "/jobs/view/42?refId=b" "Engineer"] ∅) = 2 ∧
  Some "https://www.linkedin.com/jobs/view/42?refId=a"
  ∈ Prev.add_posting_links "https://www.linkedin.com/jobs/search"
      [mkAnchor "/jobs/view/42?refId=a" "Engineer";
       mkAnchor "/jobs/view/42?refId=b" "Engineer"] ∅.
Proof.
  split; [reflexivity|]. split; [by vm_compute|]. split; [by vm_compute|].
  unfold Prev.add_posting_links. cbn [fold_left href].
  replace (contains "/jobs/view/" "/jobs/view/42?refId=a") with true by reflexivity.
  replace (contains "/jobs/view/" "/jobs/view/42?refId=b") with true by reflexivity.
  replace (Prev.normalize_url "https://www.linkedin.com/jobs/search"
             (Some "/jobs/view/42?refId=a"))
    with (Some "https://www.linkedin.com/jobs/view/42?refId=a") by (by vm_compute).
  set_solver.
Qed.

(** ** Normalisation of URLs *)





























